(** * Test-From-Flashcards: the quiz generator of [main.py]

    A shallow embedding of [TestMaker] (the CSV loader, the three question
    generators and the session loop of [run_test]) together with the
    properties its specification states about them.

    Conventions of the embedding.
    - A Python [str] is a list of Unicode code points ([list N]); string
      literals of the source are written with [lit].
    - A Python [int] is a [Z]; list positions and pool indices are [nat].
    - The [set] object [used_indices] is a [gset nat] held in the [world];
      it is one object, mutated in place by the generators.
    - [random] draws from an oracle tape held in the [world]: every call of
      [_randbelow n] reads the next entry of the tape and reduces it modulo
      [n]. Quantifying over the tape quantifies over every outcome of the
      pseudo-random generator.
    - The console is the list of lines still to be typed ([stdin]);
      [input()] raises [EOFError] when it is exhausted. Text printed by the
      program does not influence any result and is left out.
    - A raised exception is an [outcome]; the [world] reached when it is
      raised is kept, as mutations made before a [raise] persist. *)

From Stdlib Require Import ZArith NArith List String Ascii Decimal.
From Stdlib Require Import DecimalFacts DecimalNat.
From Stdlib Require Import Floats.SpecFloat.
From stdpp Require Import ssreflect base numbers list gmap sets.

#[local] Set Warnings "-rewrite-rw".
Local Open Scope Z_scope.

(** ** Python strings *)

Definition str : Type := list N.

Definition lit (s : string) : str :=
  (λ a, N_of_ascii a) <$> list_ascii_of_string s.

(** [str.isspace] on one code point: the characters that [str.strip()]
    removes when called without argument. *)
Definition isspace (c : N) : bool :=
  ((9 <=? c) && (c <=? 13) || (28 <=? c) && (c <=? 32)
   || (c =? 133) || (c =? 160) || (c =? 5760)
   || (8192 <=? c) && (c <=? 8202)
   || (c =? 8232) || (c =? 8233) || (c =? 8239) || (c =? 8287)
   || (c =? 12288))%N.

Fixpoint lstrip (s : str) : str :=
  match s with
  | [] => []
  | c :: s' => if isspace c then lstrip s' else s
  end.

Definition rstrip (s : str) : str := reverse (lstrip (reverse s)).

Definition strip (s : str) : str := rstrip (lstrip s).

Fixpoint digits (d : Decimal.uint) : str :=
  match d with
  | Nil => []
  | D0 d => 48%N :: digits d
  | D1 d => 49%N :: digits d
  | D2 d => 50%N :: digits d
  | D3 d => 51%N :: digits d
  | D4 d => 52%N :: digits d
  | D5 d => 53%N :: digits d
  | D6 d => 54%N :: digits d
  | D7 d => 55%N :: digits d
  | D8 d => 56%N :: digits d
  | D9 d => 57%N :: digits d
  end.

(** [str(n)] for a non-negative [int]. *)
Definition str_of_nat (n : nat) : str := digits (Nat.to_uint n).

(** ** The world, exceptions and the monad of effects *)

Inductive exn : Type := IndexError | ValueError | EOFError.

Inductive outcome (A : Type) : Type :=
  | Ret (a : A)
  | Raise (e : exn).
Arguments Ret {A} a.
Arguments Raise {A} e.

Record rng_state : Type := { tape : nat → nat; cursor : nat }.

(** The values of [score], [total_questions] and [used_indices] when an
    iteration of a question loop of [run_test] completes, with the answer
    typed, the label that was expected and the index the generator had
    drawn as [correct_idx]. *)
Record snapshot : Type :=
  { snap_score : Z; snap_total : Z; snap_used : gset nat;
    snap_answer : str; snap_correct : str; snap_idx : nat }.

Record world : Type :=
  { used_indices : gset nat;
    rng : rng_state;
    stdin : list str;
    journal : list snapshot (* ghost: one snapshot per answered question *) }.

Definition set_used (u : gset nat) (w : world) : world :=
  {| used_indices := u; rng := rng w; stdin := stdin w; journal := journal w |}.
Definition set_rng (r : rng_state) (w : world) : world :=
  {| used_indices := used_indices w; rng := r; stdin := stdin w;
     journal := journal w |}.
Definition set_stdin (i : list str) (w : world) : world :=
  {| used_indices := used_indices w; rng := rng w; stdin := i;
     journal := journal w |}.
Definition set_journal (j : list snapshot) (w : world) : world :=
  {| used_indices := used_indices w; rng := rng w; stdin := stdin w;
     journal := j |}.

Definition M (A : Type) : Type := world → outcome A * world.

#[global] Instance M_ret : MRet M := λ A a w, (Ret a, w).
#[global] Instance M_bind : MBind M := λ A B f m w,
  match m w with
  | (Ret a, w') => f a w'
  | (Raise e, w') => (Raise e, w')
  end.

Definition raise {A : Type} (e : exn) : M A := λ w, (Raise e, w).
Definition get_used : M (gset nat) := λ w, (Ret (used_indices w), w).
Definition add_used (i : nat) : M unit :=
  λ w, (Ret (), set_used ({[ i ]} ∪ used_indices w) w).

(** ** The [random] module *)

(** [_randbelow(n)]: the next tape entry, reduced below [n]. *)
Definition randbelow (n : nat) : M nat := λ w,
  let r := rng w in
  (Ret (tape r (cursor r) mod n)%nat,
   set_rng {| tape := tape r; cursor := S (cursor r) |} w).

(** [random.choice(seq)]: [IndexError] on an empty sequence. *)
Definition choice {A : Type} (seq : list A) : M A :=
  match seq with
  | [] => raise IndexError
  | _ :: _ =>
      j ← randbelow (length seq);
      match seq !! j with
      | Some x => mret x
      | None => raise IndexError
      end
  end.

(** [random.sample(population, k)]: [ValueError] unless [0 <= k <= n];
    else selection from a copy of the population,
    [result[i] = pool[j]; pool[j] = pool[n-i-1]] with [j = _randbelow(n-i)].
    The slots from [n-i-1] on are never read again, so the copy is cut there.
    (For a population that is large with respect to [k] the library draws
    positions and draws again those already taken; either way the result
    is [k] elements at pairwise distinct positions.) *)
Fixpoint sample_loop {A : Type} (k : nat) (pool : list A) : M (list A) :=
  match k with
  | O => mret []
  | S k' =>
      j ← randbelow (length pool);
      match pool !! j, last pool with
      | Some x, Some y =>
          result ← sample_loop k' (take (length pool - 1) (<[j := y]> pool));
          mret (x :: result)
      | _, _ => raise IndexError
      end
  end.

Definition sample {A : Type} (population : list A) (k : Z) : M (list A) :=
  if decide (0 ≤ k ≤ Z.of_nat (length population))
  then sample_loop (Z.to_nat k) population
  else raise ValueError.

(** [x[i], x[j] = x[j], x[i]] *)
Definition swap {A : Type} (x : list A) (i j : nat) : list A :=
  match x !! i, x !! j with
  | Some xi, Some xj => <[j := xi]> (<[i := xj]> x)
  | _, _ => x
  end.

(** [random.shuffle(x)]:
    [for i in reversed(range(1, len(x))): j = _randbelow(i + 1); swap]. *)
Fixpoint shuffle_loop {A : Type} (i : nat) (x : list A) : M (list A) :=
  match i with
  | O => mret x
  | S i' =>
      j ← randbelow (S i);
      shuffle_loop i' (swap x i j)
  end.

Definition shuffle {A : Type} (x : list A) : M (list A) :=
  shuffle_loop (length x - 1) x.

(** [x.index(v)]: the first position holding [v], [ValueError] if none. *)
Definition index (x : list str) (v : str) : M nat :=
  match list_find (λ y, y = v) x with
  | Some (i, _) => mret i
  | None => raise ValueError
  end.

(** ** The records of the pool and [load_csv] *)

Record item : Type := { term : str; definition : str }.

(** What opening and reading the file gives: the two [except] clauses of
    [load_csv], or the rows [csv.reader] yields. *)
Inductive csv_read : Type :=
  | FileNotFound
  | ReadFailure
  | Rows (rows : list (list str)).

(** Truth value of a [str]: non-empty. *)
Definition truthy (s : str) : bool :=
  match s with [] => false | _ :: _ => true end.

(** The body of [for row in reader], [data] being the list built so far. *)
Definition load_row (data : list item) (row : list str) : list item :=
  if decide (2 ≤ length row)%nat then
    match row !! 0%nat, row !! 1%nat with
    | Some f0, Some f1 =>
        let t := strip f0 in
        let d := strip f1 in
        if truthy t && truthy d
        then data ++ [ {| term := t; definition := d |} ]
        else data
    | _, _ => data
    end
  else data.

Definition load_csv (file : csv_read) : list item :=
  match file with
  | Rows rows => foldl load_row [] rows
  | FileNotFound => []
  | ReadFailure => []
  end.

(** ** The question generators *)

(** The triple [(question, options, correct_answer)] a generator returns;
    [(None, None, None)] is [None]. *)
Record question : Type :=
  { q_text : str; q_options : list str; q_correct : str }.

(** Local variables of a generator at its [return], kept next to the triple
    so that properties of the selection can be stated. *)
Record choice_locals : Type :=
  { correct_idx : nat; distractor_indices : list nat }.

Record tf_locals : Type :=
  { is_true : bool; tf_correct_idx : nat; wrong_idx : option nat }.

(** [[i for i in range(len(self.terms_definitions)) if i not in used_indices]] *)
Definition available (pool : list item) (used : gset nat) : list nat :=
  filter (λ i, i ∉ used) (seq 0 (length pool)).

(** [self.terms_definitions[i]] *)
Definition item_at (pool : list item) (i : nat) : M item :=
  match pool !! i with
  | Some it => mret it
  | None => raise IndexError
  end.

Definition generate_definition_question (pool : list item) (num_choices : Z)
  : M (option (question * choice_locals)) :=
  used ← get_used;
  let available_indices := available pool used in
  if decide (Z.of_nat (length available_indices) < num_choices) then mret None
  else
    correct_idx ← choice available_indices;
    correct_item ← item_at pool correct_idx;
    _ ← add_used correct_idx;
    distractor_indices ←
      sample (filter (λ i, i ≠ correct_idx) available_indices) (num_choices - 1);
    distractors ← mapM (λ i, it ← item_at pool i; mret (definition it))
                       distractor_indices;
    options ← shuffle (definition correct_item :: distractors);
    pos ← index options (definition correct_item);
    let correct_num := str_of_nat (pos + 1) in
    let question :=
      lit "What is the definition of '" ++ term correct_item ++ lit "'?" in
    mret (Some ({| q_text := question; q_options := options;
                   q_correct := correct_num |},
                {| correct_idx := correct_idx;
                   distractor_indices := distractor_indices |})).

Definition generate_term_question (pool : list item) (num_choices : Z)
  : M (option (question * choice_locals)) :=
  used ← get_used;
  let available_indices := available pool used in
  if decide (Z.of_nat (length available_indices) < num_choices) then mret None
  else
    correct_idx ← choice available_indices;
    correct_item ← item_at pool correct_idx;
    _ ← add_used correct_idx;
    distractor_indices ←
      sample (filter (λ i, i ≠ correct_idx) available_indices) (num_choices - 1);
    distractors ← mapM (λ i, it ← item_at pool i; mret (term it))
                       distractor_indices;
    options ← shuffle (term correct_item :: distractors);
    pos ← index options (term correct_item);
    let correct_num := str_of_nat (pos + 1) in
    let question :=
      lit "Which term matches this definition: '"
        ++ definition correct_item ++ lit "'?" in
    mret (Some ({| q_text := question; q_options := options;
                   q_correct := correct_num |},
                {| correct_idx := correct_idx;
                   distractor_indices := distractor_indices |})).

(** The prompt of a True/False question. *)
Definition tf_prompt (t d : str) : str :=
  lit "True or False: The term '" ++ t ++ lit "' means '" ++ d ++ lit "'".

Definition generate_tf_question (pool : list item)
  : M (option (question * tf_locals)) :=
  used ← get_used;
  let available_indices := available pool used in
  if decide (available_indices = []) then mret None
  else
    is_true ← choice [true; false];
    correct_idx ← choice available_indices;
    correct_item ← item_at pool correct_idx;
    _ ← add_used correct_idx;
    if is_true : bool then
      mret (Some ({| q_text := tf_prompt (term correct_item)
                                         (definition correct_item);
                     q_options := [lit "True"; lit "False"];
                     q_correct := lit "1" |},
                  {| is_true := true; tf_correct_idx := correct_idx;
                     wrong_idx := None |}))
    else
      wrong_idx ←
        choice (filter (λ i, i ≠ correct_idx) available_indices);
      wrong_item ← item_at pool wrong_idx;
      let wrong_definition := definition wrong_item in
      mret (Some ({| q_text := tf_prompt (term correct_item) wrong_definition;
                     q_options := [lit "True"; lit "False"];
                     q_correct := lit "2" |},
                  {| is_true := false; tf_correct_idx := correct_idx;
                     wrong_idx := Some wrong_idx |})).

(** ** Asking a question *)

(** [str.upper] on the ASCII letters; other code points are left as they
    are. No case mapping produces a digit or a white-space character, so
    which lines [display_question] accepts, and what it returns, does not
    depend on the mapping of the other code points. *)
Definition upper_char (c : N) : N :=
  if ((97 <=? c) && (c <=? 122))%N then (c - 32)%N else c.

Definition upper (s : str) : str := upper_char <$> s.

(** [[str(i+1) for i in range(len(options))]] *)
Definition valid_answers (options : list str) : list str :=
  (λ i, str_of_nat (i + 1)) <$> seq 0 (length options).

(** The [while True] loop of [display_question] over the lines still to be
    typed: the first acceptable line is returned, with the lines left. *)
Fixpoint read_answer (valid : list str) (lines : list str)
  : outcome str * list str :=
  match lines with
  | [] => (Raise EOFError, [])
  | line :: rest =>
      let answer := strip (upper line) in
      if truthy answer && bool_decide (answer ∈ valid)
      then (Ret answer, rest)
      else read_answer valid rest
  end.

Definition display_question (question_number : Z) (question : str)
  (options : list str) : M str := λ w,
  let '(answer, rest) := read_answer (valid_answers options) (stdin w) in
  (answer, set_stdin rest w).

(** ** The session: [run_test] *)

Record preferences : Type :=
  { def_questions : Z; def_choices : Z;
    term_questions : Z; term_choices : Z;
    tf_questions : Z }.

(** The local variables [score], [total_questions], [question_number]. *)
Record session : Type :=
  { score : Z; total_questions : Z; question_number : Z }.

(** Ghost: note the state reached at the end of an iteration. *)
Definition note (s : session) (user_answer correct_answer : str) (idx : nat)
  : M unit := λ w,
  (Ret (),
   set_journal (journal w ++ [ {| snap_score := score s;
                                  snap_total := total_questions s;
                                  snap_used := used_indices w;
                                  snap_answer := user_answer;
                                  snap_correct := correct_answer;
                                  snap_idx := idx |} ]) w).

(** The body shared by the three [for] loops of [run_test], which differ in
    the generator called only. [None] is the [break]; [idx] reads the
    generator's [correct_idx] for the journal. *)
Definition ask {L : Type} (idx : L → nat)
  (generate : M (option (question * L))) (s : session) : M (option session) :=
  r ← generate;
  match r with
  | None => mret None
  | Some (q, loc) =>
      user_answer ← display_question (question_number s) (q_text q) (q_options q);
      let score' :=
        if decide (user_answer = q_correct q) then score s + 1 else score s in
      let s' := {| score := score';
                   total_questions := total_questions s + 1;
                   question_number := question_number s + 1 |} in
      _ ← note s' user_answer (q_correct q) (idx loc);
      mret (Some s')
  end.

(** [for _ in range(n): body], with [break]. *)
Fixpoint for_range (n : nat) (body : session → M (option session))
  (s : session) : M session :=
  match n with
  | O => mret s
  | S n' =>
      r ← body s;
      match r with
      | None => mret s
      | Some s' => for_range n' body s'
      end
  end.

(** Python floats: IEEE 754 binary64. *)
Definition prec : Z := 53.
Definition emax : Z := 1024.

(** An [int] as a float (exact below [2^53]). *)
Definition float_of_int (z : Z) : spec_float :=
  binary_normalize prec emax z 0 false.

(** [(score / total_questions) * 100 if total_questions > 0 else 0] *)
Definition percentage (score total_questions : Z) : spec_float :=
  if decide (total_questions > 0)
  then SFmul prec emax
         (SFdiv prec emax (float_of_int score) (float_of_int total_questions))
         (float_of_int 100)
  else S754_zero false.

(** [percentage >= n] *)
Definition ge (p : spec_float) (n : Z) : bool :=
  SFleb (float_of_int n) p.

Inductive band : Type := Excellent | Great | Good | Passed | KeepPracticing.

#[global] Instance band_eq_dec : EqDecision band.
Proof. solve_decision. Defined.

(** The [if]/[elif] chain choosing the closing message. *)
Definition remark (p : spec_float) : band :=
  if ge p 90 then Excellent
  else if ge p 80 then Great
  else if ge p 70 then Good
  else if ge p 60 then Passed
  else KeepPracticing.

Record report : Type :=
  { r_score : Z; r_total : Z; r_percentage : spec_float; r_band : band }.

(** [run_test], from the preferences [get_user_preferences] returned;
    its result is what the closing lines print. *)
Definition run_test (pool : list item) (prefs : preferences) : M report :=
  let s := {| score := 0; total_questions := 0; question_number := 1 |} in
  _ ← (λ w, (Ret (), set_journal [] (set_used ∅ w)));
  s ← for_range (Z.to_nat (def_questions prefs))
        (ask correct_idx
           (generate_definition_question pool (def_choices prefs))) s;
  s ← for_range (Z.to_nat (term_questions prefs))
        (ask correct_idx (generate_term_question pool (term_choices prefs))) s;
  s ← for_range (Z.to_nat (tf_questions prefs))
        (ask tf_correct_idx (generate_tf_question pool)) s;
  let p := percentage (score s) (total_questions s) in
  mret {| r_score := score s; r_total := total_questions s;
          r_percentage := p; r_band := remark p |}.

(** A world to start from. *)
Definition start (t : nat → nat) (lines : list str) : world :=
  {| used_indices := ∅; rng := {| tape := t; cursor := 0 |};
     stdin := lines; journal := [] |}.

Definition http_pool : list item :=
  [ {| term := lit "HTTP"; definition := lit "HyperText Transfer Protocol" |};
    {| term := lit "DNS"; definition := lit "Domain Name System" |};
    {| term := lit "TCP"; definition := lit "Transmission Control Protocol" |};
    {| term := lit "IP"; definition := lit "Internet Protocol" |} ].

Definition tape_of (l : list nat) : nat → nat := λ i, nth i l 0%nat.

(** ** Vocabulary of the properties *)

(** Only the generator moved: the set, the console and the journal are as
    they were. *)
Definition rng_only (w w' : world) : Prop :=
  used_indices w' = used_indices w ∧ stdin w' = stdin w
  ∧ journal w' = journal w.

(** The text [shown it] of the record at index [i]. *)
Definition text_at (shown : item → str) (pool : list item) (i : nat) : str :=
  from_option shown [] (pool !! i).

(** The two choice generators are one text up to the field shown as an
    option and the wording of the prompt. *)
Definition choice_question (shown : item → str) (prompt : item → str)
  (pool : list item) (num_choices : Z)
  : M (option (question * choice_locals)) :=
  used ← get_used;
  let available_indices := available pool used in
  if decide (Z.of_nat (length available_indices) < num_choices) then mret None
  else
    correct_idx ← choice available_indices;
    correct_item ← item_at pool correct_idx;
    _ ← add_used correct_idx;
    distractor_indices ←
      sample (filter (λ i, i ≠ correct_idx) available_indices) (num_choices - 1);
    distractors ← mapM (λ i, it ← item_at pool i; mret (shown it))
                       distractor_indices;
    options ← shuffle (shown correct_item :: distractors);
    pos ← index options (shown correct_item);
    mret (Some ({| q_text := prompt correct_item; q_options := options;
                   q_correct := str_of_nat (pos + 1) |},
                {| correct_idx := correct_idx;
                   distractor_indices := distractor_indices |})).

Definition definition_prompt (it : item) : str :=
  lit "What is the definition of '" ++ term it ++ lit "'?".

Definition term_prompt (it : item) : str :=
  lit "Which term matches this definition: '" ++ definition it ++ lit "'?".

(** What a choice generator has done when it returns the question [q] with
    the locals [loc], started in [w] and ended in [w']. *)
Definition choice_success (shown prompt : item → str) (pool : list item)
  (k : Z) (w : world) (q : question) (loc : choice_locals) (w' : world)
  : Prop :=
  let av := available pool (used_indices w) in
  ∃ (it : item) (pos : nat),
    correct_idx loc ∈ av
    ∧ pool !! correct_idx loc = Some it
    ∧ used_indices w' = {[ correct_idx loc ]} ∪ used_indices w
    ∧ stdin w' = stdin w ∧ journal w' = journal w
    ∧ NoDup (distractor_indices loc)
    ∧ (∀ d, d ∈ distractor_indices loc → d ∈ av ∧ d ≠ correct_idx loc)
    ∧ Z.of_nat (length (distractor_indices loc)) = k - 1
    ∧ q_options q ≡ₚ shown it :: (text_at shown pool <$> distractor_indices loc)
    ∧ q_options q !! pos = Some (shown it)
    ∧ q_correct q = str_of_nat (pos + 1)
    ∧ q_text q = prompt it.

(** The value [random.choice([True, False])] takes in [w]. *)
Definition coin (w : world) : bool :=
  bool_decide ((tape (rng w) (cursor (rng w)) mod 2)%nat = 0%nat).


(** What [generate_tf_question] has done when it returns the question [q]
    with the locals [loc], started in [w] and ended in [w']. *)
Definition tf_success (pool : list item) (w : world) (q : question)
  (loc : tf_locals) (w' : world) : Prop :=
  let av := available pool (used_indices w) in
  ∃ it : item,
    tf_correct_idx loc ∈ av
    ∧ pool !! tf_correct_idx loc = Some it
    ∧ is_true loc = coin w
    ∧ used_indices w' = {[ tf_correct_idx loc ]} ∪ used_indices w
    ∧ stdin w' = stdin w ∧ journal w' = journal w
    ∧ q_options q = [lit "True"; lit "False"]
    ∧ if is_true loc
      then wrong_idx loc = None
           ∧ q_text q = tf_prompt (term it) (definition it)
           ∧ q_correct q = lit "1"
      else ∃ (j : nat) (wrong_item : item),
             wrong_idx loc = Some j
             ∧ j ∈ av ∧ j ≠ tf_correct_idx loc
             ∧ pool !! j = Some wrong_item
             ∧ q_text q = tf_prompt (term it) (definition wrong_item)
             ∧ q_correct q = lit "2".


(** The state [run_test] starts from, as a snapshot. *)
Definition origin : snapshot :=
  {| snap_score := 0; snap_total := 0; snap_used := ∅;
     snap_answer := []; snap_correct := []; snap_idx := 0 |}.

(** One answered question takes the state [e] to the state [e']. *)
Definition answered (e e' : snapshot) : Prop :=
  snap_total e' = snap_total e + 1
  ∧ snap_score e' =
      snap_score e + (if decide (snap_answer e' = snap_correct e') then 1 else 0)
  ∧ (snap_idx e' ∉ snap_used e)
  ∧ snap_used e' = {[ snap_idx e' ]} ∪ snap_used e.

(** A journal in which every entry follows from the one before. *)
Inductive chain : snapshot → list snapshot → Prop :=
  | chain_nil e : chain e []
  | chain_cons e e' j : answered e e' → chain e' j → chain e (e' :: j).

(** The snapshot [e] shows the locals [s] and the set of [w]. *)
Definition shows (s : session) (w : world) (e : snapshot) : Prop :=
  snap_score e = score s ∧ snap_total e = total_questions s
  ∧ snap_used e = used_indices w.

(** The invariant at the head of the three loops of [run_test]. *)
Definition loop_inv (s : session) (w : world) : Prop :=
  chain origin (journal w)
  ∧ ∃ e, last (origin :: journal w) = Some e ∧ shows s w e.

(** What [ask] needs of the generator it calls. *)
Definition gen_ok {L : Type} (idx : L → nat)
  (generate : M (option (question * L))) : Prop :=
  ∀ w o w', generate w = (o, w') →
    journal w' = journal w
    ∧ match o with
      | Ret None => used_indices w' = used_indices w
      | Ret (Some (_, loc)) =>
          (idx loc ∉ used_indices w)
          ∧ used_indices w' = {[ idx loc ]} ∪ used_indices w
      | Raise _ => True
      end.

(** What one iteration, or a whole loop, leaves behind. *)
Definition after {S : Type} (post : S → world → Prop)
  (o : outcome S) (w' : world) : Prop :=
  chain origin (journal w')
  ∧ match o with
    | Ret s' => post s' w'
    | Raise _ => True
    end.


(** The loader in the words of the specification: the record a row
    contributes, if any. A row with fewer than two fields, or with one of
    its first two fields empty after trimming, contributes none. *)
Definition row_record (row : list str) : option item :=
  match row with
  | f0 :: f1 :: _ =>
      if decide (strip f0 ≠ [] ∧ strip f1 ≠ [])
      then Some {| term := strip f0; definition := strip f1 |}
      else None
  | _ => None
  end.

(** No white space at either end. *)
Definition trimmed (s : str) : Prop :=
  (∀ c, head s = Some c → isspace c = false)
  ∧ (∀ c, last s = Some c → isspace c = false).

(** The band in the words of the specification, in exact arithmetic:
    [score / total * 100 ≥ n] is [n * total ≤ 100 * score]. *)
Definition exact_band (score total : Z) : band :=
  if decide (total > 0) then
    if decide (90 * total ≤ 100 * score) then Excellent
    else if decide (80 * total ≤ 100 * score) then Great
    else if decide (70 * total ≤ 100 * score) then Good
    else if decide (60 * total ≤ 100 * score) then Passed
    else KeepPracticing
  else KeepPracticing.

(** Do the float and the exact band agree on every score out of [total]
    questions, for every [total] up to [n]? *)
Definition bands_agree_upto (n : nat) : bool :=
  forallb (λ total,
     forallb (λ score,
        bool_decide (remark (percentage (Z.of_nat score) (Z.of_nat total))
                     = exact_band (Z.of_nat score) (Z.of_nat total)))
       (seq 0 (S total)))
    (seq 0 (S n)).


(** A session on [http_pool]: one question of each kind, four lines typed
    of which the first is no valid answer. *)
Definition demo_prefs : preferences :=
  {| def_questions := 1; def_choices := 4;
     term_questions := 1; term_choices := 2;
     tf_questions := 1 |}.

Definition demo_world : world :=
  start (tape_of [0; 1; 2; 0; 1; 1; 1; 3; 1; 0; 1]%nat)
        [lit "x"; lit " 1 "; lit "1"; lit "2"].

(** A pool in which two records carry the same definition. *)
Definition twin_pool : list item :=
  [ {| term := lit "car"; definition := lit "vehicle" |};
    {| term := lit "automobile"; definition := lit "vehicle" |};
    {| term := lit "tree"; definition := lit "plant" |} ].

(** Three of the four records are used already. *)
Definition nearly_spent : world :=
  set_used {[ 0%nat; 1%nat; 3%nat ]} (start (tape_of []) []).

(** ** The rest of [main.py] *)

(** *** The menu of [select_csv_file] and [TestMaker.__init__] *)

(** [len(row) >= 2 and row[0].strip() and row[1].strip()] *)
Definition counted (row : list str) : bool :=
  bool_decide (2 ≤ length row)%nat
  && match row !! 0%nat with Some f0 => truthy (strip f0) | None => false end
  && match row !! 1%nat with Some f1 => truthy (strip f1) | None => false end.

(** The number of terms shown next to a file name:
    [sum(1 for row in reader if ...)], and [0] under the bare [except]. *)
Definition term_count (file : csv_read) : nat :=
  match file with
  | Rows rows =>
      foldl (λ n row, if counted row then (n + 1)%nat else n) 0%nat rows
  | FileNotFound => 0%nat
  | ReadFailure => 0%nat
  end.

(** A step that may end the process by [sys.exit(status)]. *)
Inductive exiting (A : Type) : Type :=
  | Goes (a : A)
  | Exits (status : Z).
Arguments Goes {A} a.
Arguments Exits {A} status.

(** [TestMaker.__init__]: the pool, or [sys.exit(1)] when nothing was
    loaded. *)
Definition TestMaker_init (file : csv_read) : exiting (list item) :=
  let terms_definitions := load_csv file in
  match terms_definitions with
  | [] => Exits 1
  | _ :: _ => Goes terms_definitions
  end.

(** The [while True] loop of [select_csv_file] over the lines still to be
    typed. [int_of] is [int(...)] on a line, [None] standing for
    [ValueError]; [csv_files] is what [get_csv_files] returned. *)
Fixpoint choose_file {P : Type} (int_of : str → option Z)
  (csv_files : list P) (lines : list str) : outcome P * list str :=
  match lines with
  | [] => (Raise EOFError, [])
  | line :: rest =>
      match int_of line with
      | Some choice =>
          if decide (1 ≤ choice ≤ Z.of_nat (length csv_files)) then
            match csv_files !! Z.to_nat (choice - 1) with
            | Some f => (Ret f, rest)
            | None => (Raise IndexError, rest)
            end
          else choose_file int_of csv_files rest
      | None => choose_file int_of csv_files rest
      end
  end.

(** [select_csv_file], from the list [get_csv_files] returned:
    [sys.exit(1)] when it is empty. *)
Definition select_csv_file {P : Type} (int_of : str → option Z)
  (csv_files : list P) : M (exiting P) := λ w,
  match csv_files with
  | [] => (Ret (Exits 1), w)
  | _ :: _ =>
      match choose_file int_of csv_files (stdin w) with
      | (Ret f, rest) => (Ret (Goes f), set_stdin rest w)
      | (Raise e, rest) => (Raise e, set_stdin rest w)
      end
  end.

(** *** [get_user_preferences] *)

(** One pass through the body of [while True]: a value, a [continue]
    (also after a [ValueError], which the loop catches), or the end of the
    input, where [input()] raises [EOFError]. *)
Inductive pass (A : Type) : Type :=
  | Got (a : A) (rest : list str)
  | Again (rest : list str)
  | Ended.
Arguments Got {A} a rest.
Arguments Again {A} rest.
Arguments Ended {A}.

Definition Pass (A : Type) : Type := list str → pass A.

#[global] Instance Pass_ret : MRet Pass := λ A a lines, Got a lines.
#[global] Instance Pass_bind : MBind Pass := λ A B f m lines,
  match m lines with
  | Got a rest => f a rest
  | Again rest => Again rest
  | Ended => Ended
  end.

(** [int(input(...))] *)
Definition read_int (int_of : str → option Z) : Pass Z := λ lines,
  match lines with
  | [] => Ended
  | line :: rest =>
      match int_of line with
      | Some z => Got z rest
      | None => Again rest
      end
  end.

(** [if bad: print(...); continue] *)
Definition reject (bad : bool) : Pass unit := λ lines,
  if bad then Again lines else Got () lines.

Definition preferences_pass (int_of : str → option Z) (max_possible : Z)
  : Pass preferences :=
  def_questions ← read_int int_of;
  _ ← reject (bool_decide (def_questions < 0));
  _ ← reject (bool_decide (def_questions > max_possible));
  def_choices ←
    (if decide (def_questions > 0) then
       def_choices ← read_int int_of;
       _ ← reject (bool_decide (def_choices < 2 ∨ def_choices > max_possible));
       mret def_choices
     else mret 4);
  term_questions ← read_int int_of;
  _ ← reject (bool_decide (term_questions < 0));
  _ ← reject (bool_decide (term_questions > max_possible));
  term_choices ←
    (if decide (term_questions > 0) then
       term_choices ← read_int int_of;
       _ ← reject (bool_decide (term_choices < 2 ∨ term_choices > max_possible));
       mret term_choices
     else mret 4);
  tf_questions ← read_int int_of;
  _ ← reject (bool_decide (tf_questions < 0));
  _ ← reject (bool_decide (tf_questions > max_possible));
  let total_questions := def_questions + term_questions + tf_questions in
  _ ← reject (bool_decide (total_questions = 0));
  _ ← reject (bool_decide (total_questions > max_possible));
  mret {| def_questions := def_questions; def_choices := def_choices;
          term_questions := term_questions; term_choices := term_choices;
          tf_questions := tf_questions |}.

(** The [while True] loop, at most [fuel] passes; [None] when they are
    spent. Every pass that ends in [continue] has read a line, so one pass
    more than there are lines is enough ([preferences_loop_enough]). *)
Fixpoint preferences_loop (int_of : str → option Z) (max_possible : Z)
  (fuel : nat) (lines : list str) : option (outcome preferences * list str) :=
  match fuel with
  | O => None
  | S fuel' =>
      match preferences_pass int_of max_possible lines with
      | Got p rest => Some (Ret p, rest)
      | Again rest => preferences_loop int_of max_possible fuel' rest
      | Ended => Some (Raise EOFError, [])
      end
  end.

Definition get_user_preferences (int_of : str → option Z) (pool : list item)
  : M preferences := λ w,
  match preferences_loop int_of (Z.of_nat (length pool))
          (S (length (stdin w))) (stdin w) with
  | Some (o, rest) => (o, set_stdin rest w)
  | None => (Raise EOFError, w)
  end.

(** [list(preferences.values())[::2]] *)
Fixpoint every_second {A : Type} (l : list A) : list A :=
  match l with
  | [] => []
  | x :: rest =>
      x :: match rest with
           | [] => []
           | _ :: rest' => every_second rest'
           end
  end.

(** The total [run_test] announces:
    [sum(list(preferences.values())[::2])]. *)
Definition announced_total (prefs : preferences) : Z :=
  foldr Z.add 0
    (every_second [def_questions prefs; def_choices prefs;
                   term_questions prefs; term_choices prefs;
                   tf_questions prefs]).


(** A reader of plain decimal numerals (digits only), to run examples;
    [int] accepts more. *)
Definition digit_value (c : N) : option Z :=
  if ((48 <=? c) && (c <=? 57))%N then Some (Z.of_N c - 48) else None.

Definition plain_int (s : str) : option Z :=
  match s with
  | [] => None
  | _ :: _ =>
      foldl (λ acc c, a ← acc; d ← digit_value c; Some (10 * a + d))
            (Some 0) s
  end.


(** The used set holds indices of the pool only. *)
Definition within (pool : list item) (w : world) : Prop :=
  ∀ i, i ∈ used_indices w → (i < length pool)%nat.

(** What [get_user_preferences] checks before it returns, [n] being the
    number of records. *)
Definition valid_preferences (n : Z) (p : preferences) : Prop :=
  0 ≤ def_questions p ≤ n
  ∧ (if decide (def_questions p > 0) then 2 ≤ def_choices p ≤ n
     else def_choices p = 4)
  ∧ 0 ≤ term_questions p ≤ n
  ∧ (if decide (term_questions p > 0) then 2 ≤ term_choices p ≤ n
     else term_choices p = 4)
  ∧ 0 ≤ tf_questions p ≤ n
  ∧ 1 ≤ def_questions p + term_questions p + tf_questions p ≤ n.

(** The numbers asked for, in the order of the prompts, when the
    preferences [p] are typed without a mistake: a number of choices is
    asked only after a positive number of questions. *)
Definition entries (p : preferences) : list Z :=
  [def_questions p]
  ++ (if decide (def_questions p > 0) then [def_choices p] else [])
  ++ [term_questions p]
  ++ (if decide (term_questions p > 0) then [term_choices p] else [])
  ++ [tf_questions p].


(** A pass step that, when it goes on or asks to start again, has read
    at least [k] lines and left the others as they were. *)
Definition advances {A : Type} (k : nat) (m : Pass A) : Prop :=
  ∀ lines,
    match m lines with
    | Got _ rest | Again rest =>
        ∃ consumed, lines = consumed ++ rest ∧ (k ≤ length consumed)%nat
    | Ended => True
    end.


(** * Properties *)

(** ** Running the monad *)

Lemma bind_run {A B : Type} (m : M A) (f : A → M B) (w : world) :
  (m ≫= f) w =
  match m w with
  | (Ret a, w1) => f a w1
  | (Raise e, w1) => (Raise e, w1)
  end.
Proof. reflexivity. Qed.

Lemma ret_run {A : Type} (a : A) (w : world) :
  (mret a : M A) w = (Ret a, w).
Proof. reflexivity. Qed.

Lemma rng_only_refl w : rng_only w w.
Proof. by unfold rng_only. Qed.

Lemma rng_only_trans w1 w2 w3 :
  rng_only w1 w2 → rng_only w2 w3 → rng_only w1 w3.
Proof. unfold rng_only. intros (-> & -> & ->) (-> & -> & ->). done. Qed.

Create HintDb quiz.
#[local] Hint Resolve rng_only_refl : quiz.

(** ** Lists updated in place *)

Section ListFacts.
Context {A : Type}.
Implicit Types (x l : list A) (a b : A).

Lemma insert_cons_perm l j a b :
  l !! j = Some b → b :: <[j := a]> l ≡ₚ a :: l.
Proof.
  revert j. induction l as [|c l IH]; intros [|j] Hj; simplify_eq/=.
  - apply perm_swap.
  - rewrite (perm_swap c b). rewrite (IH j Hj). apply perm_swap.
Qed.

Lemma swap_perm x i j : swap x i j ≡ₚ x.
Proof.
  unfold swap.
  destruct (x !! i) as [xi|] eqn:Hi; [|done].
  destruct (x !! j) as [xj|] eqn:Hj; [|done].
  destruct (decide (i = j)) as [->|Hne].
  - simplify_eq. rewrite list_insert_insert_eq. by rewrite list_insert_id.
  - apply (inj (cons xj)).
    rewrite insert_cons_perm; last by rewrite list_lookup_insert_ne.
    by rewrite insert_cons_perm.
Qed.

Lemma drop_last_perm l j b c :
  l !! j = Some b → last l = Some c →
  b :: take (length l - 1) (<[j := c]> l) ≡ₚ l.
Proof.
  intros Hj Hc.
  apply last_Some in Hc as [l0 ->].
  rewrite length_app /= Nat.add_sub.
  destruct (decide (j < length l0)%nat) as [Hlt|Hge].
  - rewrite lookup_app_l in Hj; [|done].
    rewrite insert_app_l; [|done].
    rewrite take_app_length'; last by rewrite length_insert.
    rewrite insert_cons_perm; [|done].
    by rewrite Permutation_cons_append.
  - apply lookup_lt_Some in Hj as Hlen. rewrite length_app /= in Hlen.
    assert (j = length l0) as -> by lia.
    rewrite list_lookup_middle in Hj; [|done]. simplify_eq.
    rewrite insert_app_r_alt; [|done]. rewrite Nat.sub_diag /=.
    rewrite take_app_length. by rewrite Permutation_cons_append.
Qed.
End ListFacts.

(** ** What the [random] module returns *)

Lemma randbelow_run (n : nat) (w : world) :
  ∃ j w', randbelow n w = (Ret j, w') ∧ (n ≠ 0 → j < n)%nat ∧ rng_only w w'.
Proof.
  eexists _, _. split; [reflexivity|]. split; [|done].
  intros Hn. by apply Nat.mod_upper_bound.
Qed.

Lemma choice_nil {A : Type} (w : world) :
  choice (@nil A) w = (Raise IndexError, w).
Proof. reflexivity. Qed.

Lemma choice_run {A : Type} (seq : list A) (w : world) :
  seq ≠ [] →
  ∃ x w', choice seq w = (Ret x, w') ∧ x ∈ seq ∧ rng_only w w'.
Proof.
  intros Hne. destruct seq as [|a seq]; [done|]. unfold choice.
  destruct (randbelow_run (length (a :: seq)) w) as (j & w' & Hr & Hj & Hw).
  rewrite bind_run Hr.
  destruct (lookup_lt_is_Some_2 (a :: seq) j) as [x Hx]; [by apply Hj|].
  rewrite Hx. exists x, w'. split; [done|]. split; [|done].
  by eapply list_elem_of_lookup_2.
Qed.

Lemma sample_loop_run {A : Type} (k : nat) (pool : list A) (w : world) :
  (k ≤ length pool)%nat →
  ∃ l rest w', sample_loop k pool w = (Ret l, w')
    ∧ length l = k ∧ l ++ rest ≡ₚ pool ∧ rng_only w w'.
Proof.
  revert pool w. induction k as [|k IH]; intros pool w Hk.
  - exists [], pool, w. auto with quiz.
  - cbn [sample_loop].
    destruct (randbelow_run (length pool) w) as (j & w1 & Hr & Hj & Hw1).
    rewrite bind_run Hr.
    destruct (lookup_lt_is_Some_2 pool j) as [x Hx]; [apply Hj; lia|].
    destruct (last pool) as [y|] eqn:Hy; last first.
    { apply last_None in Hy. subst pool. simpl in Hk. lia. }
    rewrite Hx.
    destruct (IH (take (length pool - 1) (<[j := y]> pool)) w1)
      as (l & rest & w2 & Hl & Hlen & Hperm & Hw2).
    { rewrite length_take length_insert. lia. }
    rewrite bind_run Hl. exists (x :: l), rest, w2.
    split; [done|]. split; [by rewrite /= Hlen|].
    split; [|by eapply rng_only_trans].
    rewrite /= Hperm. by apply drop_last_perm.
Qed.

Lemma sample_run {A : Type} (population : list A) (k : Z) (w : world) :
  0 ≤ k ≤ Z.of_nat (length population) →
  ∃ l rest w', sample population k w = (Ret l, w')
    ∧ length l = Z.to_nat k ∧ l ++ rest ≡ₚ population ∧ rng_only w w'.
Proof.
  intros Hk. unfold sample. rewrite decide_True //.
  apply sample_loop_run. lia.
Qed.

Lemma sample_raise {A : Type} (population : list A) (k : Z) (w : world) :
  ¬ (0 ≤ k ≤ Z.of_nat (length population)) →
  sample population k w = (Raise ValueError, w).
Proof. intros Hk. unfold sample. by rewrite decide_False. Qed.

Lemma shuffle_loop_run {A : Type} (i : nat) (x : list A) (w : world) :
  ∃ x' w', shuffle_loop i x w = (Ret x', w') ∧ x' ≡ₚ x ∧ rng_only w w'.
Proof.
  revert x w. induction i as [|i IH]; intros x w.
  - exists x, w. auto with quiz.
  - cbn [shuffle_loop].
    destruct (randbelow_run (S (S i)) w) as (j & w1 & Hr & _ & Hw1).
    rewrite bind_run Hr.
    destruct (IH (swap x (S i) j) w1) as (x' & w2 & Hs & Hperm & Hw2).
    exists x', w2. split; [done|]. split; [|by eapply rng_only_trans].
    by rewrite Hperm swap_perm.
Qed.

Lemma shuffle_run {A : Type} (x : list A) (w : world) :
  ∃ x' w', shuffle x w = (Ret x', w') ∧ x' ≡ₚ x ∧ rng_only w w'.
Proof. apply shuffle_loop_run. Qed.

Lemma index_run (x : list str) (v : str) (w : world) :
  v ∈ x →
  ∃ pos, index x v w = (Ret pos, w) ∧ x !! pos = Some v.
Proof.
  intros Hv. unfold index.
  destruct (list_find_elem_of (λ y, y = v) x v Hv eq_refl) as [[pos y] Hf].
  rewrite Hf. exists pos. split; [done|].
  apply list_find_Some in Hf as (Hpos & -> & _). done.
Qed.

(** ** Available indices and pool look-ups *)

Lemma elem_of_available (pool : list item) (used : gset nat) (i : nat) :
  i ∈ available pool used ↔ (i < length pool)%nat ∧ i ∉ used.
Proof.
  unfold available. rewrite list_elem_of_filter elem_of_seq.
  split; intros [? ?]; split; auto; lia.
Qed.

Lemma NoDup_available (pool : list item) (used : gset nat) :
  NoDup (available pool used).
Proof. apply NoDup_filter, NoDup_seq. Qed.

Lemma item_at_run (pool : list item) (i : nat) (w : world) :
  (i < length pool)%nat →
  ∃ it, item_at pool i w = (Ret it, w) ∧ pool !! i = Some it.
Proof.
  intros Hi. destruct (lookup_lt_is_Some_2 pool i Hi) as [it Hit].
  exists it. unfold item_at. by rewrite Hit.
Qed.

Lemma mapM_text_run (shown : item → str) (pool : list item)
  (l : list nat) (w : world) :
  Forall (λ i, i < length pool)%nat l →
  mapM (λ i, it ← item_at pool i; mret (shown it)) l w
  = (Ret (text_at shown pool <$> l), w).
Proof.
  induction 1 as [|i l Hi _ IH]; [done|].
  cbn [mapM]. rewrite bind_run bind_run.
  destruct (item_at_run pool i w Hi) as (it & -> & Hit).
  rewrite ret_run bind_run IH ret_run /=.
  by rewrite /text_at Hit.
Qed.

(** ** The choice generators *)

Lemma generate_definition_question_unfold pool k :
  generate_definition_question pool k
  = choice_question definition definition_prompt pool k.
Proof. reflexivity. Qed.

Lemma generate_term_question_unfold pool k :
  generate_term_question pool k = choice_question term term_prompt pool k.
Proof. reflexivity. Qed.

Lemma filter_ne_id (l : list nat) (c : nat) :
  c ∉ l → filter (λ i, i ≠ c) l = l.
Proof.
  induction l as [|x l IH]; [done|].
  rewrite not_elem_of_cons. intros [Hx Hl].
  rewrite filter_cons_True //. by rewrite IH.
Qed.

Lemma length_filter_ne (l : list nat) (c : nat) :
  NoDup l → c ∈ l → S (length (filter (λ i, i ≠ c) l)) = length l.
Proof.
  induction 1 as [|x l Hx Hnd IH]; [by intros ?%elem_of_nil|].
  rewrite elem_of_cons. intros [->|Hc].
  - rewrite filter_cons_False; [|by intros ?]. by rewrite filter_ne_id.
  - rewrite filter_cons_True; [|by intros ->]. by rewrite /= IH.
Qed.

Section ChoiceQuestion.
Variables (shown prompt : item → str) (pool : list item).

Lemma choice_question_insufficient (k : Z) (w : world) :
  Z.of_nat (length (available pool (used_indices w))) < k →
  choice_question shown prompt pool k w = (Ret None, w).
Proof.
  intros Hk. unfold choice_question. rewrite bind_run /=.
  by rewrite decide_True.
Qed.

Lemma choice_question_success (k : Z) (w : world) :
  1 ≤ k ≤ Z.of_nat (length (available pool (used_indices w))) →
  ∃ q loc w',
    choice_question shown prompt pool k w = (Ret (Some (q, loc)), w')
    ∧ choice_success shown prompt pool k w q loc w'.
Proof.
  intros Hk. unfold choice_question. rewrite bind_run /=.
  set (av := available pool (used_indices w)) in *.
  rewrite decide_False; [|lia].
  destruct (choice_run av w) as (c & w1 & Hc & Hcav & Hu1 & Hi1 & Hj1).
  { intros E. rewrite E /= in Hk. lia. }
  rewrite bind_run Hc.
  pose proof Hcav as [Hclt Hcu]%elem_of_available.
  destruct (item_at_run pool c w1 Hclt) as (it & Hit & Hlook).
  rewrite bind_run Hit bind_run /=.
  pose proof (length_filter_ne av c (NoDup_available _ _) Hcav) as Hlen.
  destruct (sample_run (filter (λ i, i ≠ c) av) (k - 1)
              (set_used ({[c]} ∪ used_indices w1) w1))
    as (ds & rest & w2 & Hs & Hdlen & Hperm & Hu2 & Hi2 & Hj2); [lia|].
  rewrite bind_run Hs.
  assert (∀ d, d ∈ ds → d ∈ av ∧ d ≠ c) as Hds.
  { intros d Hd.
    assert (d ∈ filter (λ i, i ≠ c) av) as Hf
      by (rewrite -Hperm; apply elem_of_app; by left).
    by apply list_elem_of_filter in Hf as [? ?]. }
  rewrite bind_run mapM_text_run.
  2:{ apply Forall_forall. intros d Hd.
      by apply Hds in Hd as [[? ?]%elem_of_available _]. }
  destruct (shuffle_run (shown it :: (text_at shown pool <$> ds)) w2)
    as (opts & w3 & Hsh & Hopts & Hu3 & Hi3 & Hj3).
  rewrite bind_run Hsh.
  destruct (index_run opts (shown it) w3) as (pos & Hidx & Hpos).
  { rewrite Hopts. apply list_elem_of_here. }
  rewrite bind_run Hidx ret_run.
  eexists _, _, _. split; [reflexivity|].
  exists it, pos. cbn.
  split_and!; try done.
  - by rewrite Hu3 Hu2 /= Hu1.
  - by rewrite Hi3 Hi2 /= Hi1.
  - by rewrite Hj3 Hj2 /= Hj1.
  - assert (NoDup (ds ++ rest)) as Hnd.
    { rewrite Hperm. apply NoDup_filter, NoDup_available. }
    by apply NoDup_app in Hnd as [? _].
  - lia.
Qed.

Lemma choice_question_nonpositive (k : Z) (w : world) :
  k ≤ 0 →
  ∃ e w', choice_question shown prompt pool k w = (Raise e, w')
    ∧ used_indices w ⊆ used_indices w' ∧ journal w' = journal w.
Proof.
  intros Hk. unfold choice_question. rewrite bind_run /=.
  set (av := available pool (used_indices w)) in *.
  rewrite decide_False; [|lia].
  destruct (decide (av = [])) as [E|Hne].
  { rewrite E bind_run choice_nil. by eexists _, _. }
  destruct (choice_run av w Hne) as (c & w1 & Hc & Hcav & Hu1 & _ & Hj1).
  rewrite bind_run Hc.
  pose proof Hcav as [Hclt _]%elem_of_available.
  destruct (item_at_run pool c w1 Hclt) as (it & Hit & _).
  rewrite bind_run Hit bind_run /= bind_run sample_raise; [|lia].
  eexists _, _. split; [reflexivity|]. rewrite /= Hu1.
  split; [apply union_subseteq_r|done].
Qed.

(** Whatever a choice generator returns, it is one of the three cases
    above. *)
Lemma choice_question_inv (k : Z) (w w' : world) q loc :
  choice_question shown prompt pool k w = (Ret (Some (q, loc)), w') →
  1 ≤ k ≤ Z.of_nat (length (available pool (used_indices w)))
  ∧ choice_success shown prompt pool k w q loc w'.
Proof.
  intros Hrun.
  destruct (decide (Z.of_nat (length (available pool (used_indices w))) < k))
    as [Hlt|Hge].
  { by rewrite choice_question_insufficient in Hrun. }
  destruct (decide (k ≤ 0)) as [Hk|Hk].
  { destruct (choice_question_nonpositive k w Hk) as (e & w1 & He & _).
    congruence. }
  assert (1 ≤ k ≤ Z.of_nat (length (available pool (used_indices w))))
    as Hok by lia.
  split; [done|].
  destruct (choice_question_success k w Hok) as (q1 & loc1 & w1 & Hrun1 & Hs).
  congruence.
Qed.

Lemma choice_question_none_inv (k : Z) (w w' : world) :
  choice_question shown prompt pool k w = (Ret None, w') →
  Z.of_nat (length (available pool (used_indices w))) < k ∧ w' = w.
Proof.
  intros Hrun.
  destruct (decide (Z.of_nat (length (available pool (used_indices w))) < k))
    as [Hlt|Hge].
  { rewrite choice_question_insufficient in Hrun; [|done]. by simplify_eq. }
  destruct (decide (k ≤ 0)) as [Hk|Hk].
  { destruct (choice_question_nonpositive k w Hk) as (e & w1 & He & _).
    congruence. }
  destruct (choice_question_success k w) as (q1 & loc1 & w1 & Hrun1 & _);
    [lia|congruence].
Qed.
End ChoiceQuestion.

(** ** The True/False generator *)

Lemma coin_run (w : world) :
  ∃ w1, choice [true; false] w = (Ret (coin w), w1) ∧ rng_only w w1
        ∧ rng w1 = {| tape := tape (rng w); cursor := S (cursor (rng w)) |}.
Proof.
  unfold choice, coin, randbelow. rewrite bind_run. cbv beta zeta.
  change (length [true; false]) with 2%nat.
  pose proof (Nat.mod_upper_bound (tape (rng w) (cursor (rng w))) 2) as Hlt.
  destruct (tape (rng w) (cursor (rng w)) mod 2)%nat as [|[|n]];
    [| |lia]; by eexists.
Qed.

Section TrueFalse.
Variable pool : list item.

Lemma tf_empty (w : world) :
  available pool (used_indices w) = [] →
  generate_tf_question pool w = (Ret None, w).
Proof.
  intros E. unfold generate_tf_question. rewrite bind_run /=.
  by rewrite decide_True.
Qed.

Lemma tf_success_run (w : world) :
  available pool (used_indices w) ≠ [] →
  coin w = true ∨ (2 ≤ length (available pool (used_indices w)))%nat →
  ∃ q loc w',
    generate_tf_question pool w = (Ret (Some (q, loc)), w')
    ∧ tf_success pool w q loc w'.
Proof.
  intros Hne Hcase. unfold generate_tf_question.
  rewrite bind_run /get_used. cbv beta iota zeta.
  set (av := available pool (used_indices w)) in *.
  rewrite decide_False //.
  destruct (coin_run w) as (w0 & Hcoin & (Hu0 & Hi0 & Hj0) & _).
  rewrite bind_run Hcoin.
  destruct (choice_run av w0 Hne) as (c & w1 & Hc & Hcav & Hu1 & Hi1 & Hj1).
  rewrite bind_run Hc.
  pose proof Hcav as [Hclt Hcu]%elem_of_available.
  destruct (item_at_run pool c w1 Hclt) as (it & Hit & Hlook).
  rewrite bind_run Hit bind_run /=.
  destruct (coin w) eqn:Hw.
  - rewrite ret_run. eexists _, _, _. split; [reflexivity|].
    exists it. cbn. rewrite Hw Hu1 Hu0 Hi1 Hi0 Hj1 Hj0. by split_and!.
  - destruct Hcase as [?|Hlen]; [done|].
    pose proof (length_filter_ne av c (NoDup_available _ _) Hcav) as Hf.
    destruct (choice_run (filter (λ i, i ≠ c) av)
                (set_used ({[c]} ∪ used_indices w1) w1))
      as (j & w2 & Hj & Hjin & Hu2 & Hi2 & Hj2).
    { intros E. rewrite E /= in Hf. lia. }
    rewrite bind_run Hj.
    apply list_elem_of_filter in Hjin as [Hjc Hjav].
    pose proof Hjav as [Hjlt _]%elem_of_available.
    destruct (item_at_run pool j w2 Hjlt) as (wit & Hwit & Hwlook).
    rewrite bind_run Hwit ret_run.
    eexists _, _, _. split; [reflexivity|].
    exists it. cbn. rewrite Hw Hu2 Hi2 Hj2 /= Hu1 Hu0 Hi1 Hi0 Hj1 Hj0.
    split_and!; try done. by exists j, wit.
Qed.

(** One index left and the coin on False: the second [random.choice] is
    given an empty list. *)
Lemma tf_crash (w : world) :
  length (available pool (used_indices w)) = 1%nat →
  coin w = false →
  ∃ c w',
    generate_tf_question pool w = (Raise IndexError, w')
    ∧ available pool (used_indices w) = [c]
    ∧ used_indices w' = {[ c ]} ∪ used_indices w
    ∧ journal w' = journal w.
Proof.
  intros Hlen Hw.
  assert (∃ c, available pool (used_indices w) = [c]) as [c Hav].
  { destruct (available pool (used_indices w)) as [|c [|??]]; simplify_eq/=.
    by exists c. }
  unfold generate_tf_question.
  rewrite bind_run /get_used. cbv beta iota zeta. rewrite Hav.
  case_decide; [done|].
  destruct (coin_run w) as (w0 & Hcoin & (Hu0 & Hi0 & Hj0) & _).
  rewrite bind_run Hcoin Hw.
  destruct (choice_run [c] w0) as (c' & w1 & Hc & Hcav & Hu1 & Hi1 & Hj1);
    [done|].
  apply list_elem_of_singleton in Hcav as ->.
  rewrite bind_run Hc.
  assert (c ∈ available pool (used_indices w)) as [Hclt _]%elem_of_available
    by (rewrite Hav; apply list_elem_of_here).
  destruct (item_at_run pool c w1 Hclt) as (it & Hit & Hlook).
  rewrite bind_run Hit bind_run /= filter_cons_False; [|by intros ?].
  rewrite filter_nil bind_run choice_nil.
  exists c. eexists. split; [reflexivity|]. by rewrite /= Hu1 Hu0 Hj1 Hj0.
Qed.

Lemma tf_inv (w w' : world) q loc :
  generate_tf_question pool w = (Ret (Some (q, loc)), w') →
  tf_success pool w q loc w'.
Proof.
  intros Hrun.
  destruct (decide (available pool (used_indices w) = [])) as [E|Hne].
  { by rewrite tf_empty in Hrun. }
  destruct (coin w) eqn:Hw.
  - destruct (tf_success_run w Hne) as (q1 & loc1 & w1 & Hrun1 & Hs);
      [by left|congruence].
  - destruct (decide (2 ≤ length (available pool (used_indices w)))%nat)
      as [Hlen|Hlen].
    + destruct (tf_success_run w Hne) as (q1 & loc1 & w1 & Hrun1 & Hs);
        [by right|congruence].
    + destruct (tf_crash w) as (c & w1 & Hrun1 & _); [|done|congruence].
      destruct (available pool (used_indices w)) as [|? [|? ?]];
        simpl in *; [done|done|lia].
Qed.

Lemma tf_none_inv (w w' : world) :
  generate_tf_question pool w = (Ret None, w') →
  available pool (used_indices w) = [] ∧ w' = w.
Proof.
  intros Hrun.
  destruct (decide (available pool (used_indices w) = [])) as [E|Hne].
  { rewrite tf_empty in Hrun; [|done]. by simplify_eq. }
  destruct (coin w) eqn:Hw.
  - destruct (tf_success_run w Hne) as (q1 & loc1 & w1 & Hrun1 & Hs);
      [by left|congruence].
  - destruct (decide (2 ≤ length (available pool (used_indices w)))%nat)
      as [Hlen|Hlen].
    + destruct (tf_success_run w Hne) as (q1 & loc1 & w1 & Hrun1 & Hs);
        [by right|congruence].
    + destruct (tf_crash w) as (c & w1 & Hrun1 & _); [|done|congruence].
      destruct (available pool (used_indices w)) as [|? [|? ?]];
        simpl in *; [done|done|lia].
Qed.
End TrueFalse.

(** ** The generators as [ask] sees them *)

Lemma choice_question_gen_ok shown prompt pool k :
  gen_ok correct_idx (choice_question shown prompt pool k).
Proof.
  intros w o w' Hrun.
  destruct o as [[[q loc]|]|e].
  - apply choice_question_inv in Hrun
      as (_ & it & pos & [_ Hc]%elem_of_available & _ & Hu & _ & Hj & _).
    done.
  - by apply choice_question_none_inv in Hrun as [_ ->].
  - split; [|done].
    destruct (decide (Z.of_nat (length (available pool (used_indices w))) < k)).
    { rewrite choice_question_insufficient // in Hrun. }
    destruct (decide (k ≤ 0)) as [Hk|Hk].
    + destruct (choice_question_nonpositive shown prompt pool k w Hk)
        as (e1 & w1 & Hrun1 & _ & Hj).
      congruence.
    + destruct (choice_question_success shown prompt pool k w)
        as (q1 & loc1 & w1 & Hrun1 & _); [lia|congruence].
Qed.

Lemma generate_tf_question_gen_ok pool :
  gen_ok tf_correct_idx (generate_tf_question pool).
Proof.
  intros w o w' Hrun.
  destruct o as [[[q loc]|]|e].
  - apply tf_inv in Hrun
      as (it & [_ Hc]%elem_of_available & _ & _ & Hu & _ & Hj & _).
    done.
  - by apply tf_none_inv in Hrun as [_ ->].
  - split; [|done].
    destruct (decide (available pool (used_indices w) = [])) as [E|Hne].
    { by rewrite tf_empty in Hrun. }
    destruct (decide (coin w = true
                      ∨ (2 ≤ length (available pool (used_indices w)))%nat))
      as [Hc|Hc].
    + destruct (tf_success_run pool w Hne Hc) as (q1 & loc1 & w1 & Hrun1 & _).
      congruence.
    + destruct (tf_crash pool w) as (c & w1 & Hrun1 & _ & _ & Hj).
      * destruct (available pool (used_indices w)) as [|? [|? ?]];
          simpl in *; [done|done|]. exfalso. apply Hc. right. lia.
      * destruct (coin w); [|done]. exfalso. apply Hc. by left.
      * congruence.
Qed.

(** ** Journals *)

Lemma chain_snoc e0 j e e' :
  chain e0 j → last (e0 :: j) = Some e → answered e e' → chain e0 (j ++ [e']).
Proof.
  induction 1 as [e0|e0 e1 j Hstep Hch IH]; intros Hlast He.
  - simplify_eq/=. constructor; [done|constructor].
  - simpl. constructor; [done|]. apply IH; [|done].
    by rewrite last_cons_cons in Hlast.
Qed.

Lemma chain_lookup e0 j i e e' :
  chain e0 j → (e0 :: j) !! i = Some e → j !! i = Some e' → answered e e'.
Proof.
  intros Hch. revert i e e'. induction Hch as [e0|e0 e1 j Hstep Hch IH];
    intros [|i] e e' He He'; simplify_eq/=; eauto.
Qed.

Lemma chain_grows e0 j i k e e' :
  chain e0 j → (i ≤ k)%nat →
  (e0 :: j) !! i = Some e → (e0 :: j) !! k = Some e' →
  snap_used e ⊆ snap_used e'.
Proof.
  intros Hch. revert i k e e'.
  induction Hch as [e0|e0 e1 j (_ & _ & _ & Hu) Hch IH];
    intros i k e e' Hik Hi Hk.
  - destruct i, k; simplify_eq/=; done.
  - destruct i as [|i], k as [|k]; simplify_eq/=; [done| |lia|].
    + transitivity (snap_used e1); [rewrite Hu; apply union_subseteq_r|].
      by apply (IH 0%nat k); [lia| |].
    + by apply (IH i k); [lia| |].
Qed.

Lemma chain_bounds e0 j :
  chain e0 j → 0 ≤ snap_score e0 ≤ snap_total e0 →
  Forall (λ e, 0 ≤ snap_score e ≤ snap_total e) j.
Proof.
  induction 1 as [e0|e0 e1 j (Ht & Hs & _) Hch IH]; intros H0; [done|].
  assert (0 ≤ snap_score e1 ≤ snap_total e1) by (case_decide; lia).
  constructor; auto.
Qed.

(** ** One question, one loop, the session *)

Lemma read_answer_valid valid lines a rest :
  read_answer valid lines = (Ret a, rest) → a ∈ valid.
Proof.
  induction lines as [|line lines IH]; [done|]. simpl.
  destruct (truthy _ && bool_decide _) eqn:E; [|done].
  intros [= <- <-]. apply andb_true_iff in E as [_ E].
  by apply bool_decide_eq_true in E.
Qed.

Lemma display_question_run n text options w o w' :
  display_question n text options w = (o, w') →
  used_indices w' = used_indices w ∧ journal w' = journal w
  ∧ ∀ a, o = Ret a → a ∈ valid_answers options.
Proof.
  unfold display_question.
  destruct (read_answer _ _) as [o1 rest] eqn:E. intros [= <- <-].
  split_and!; [done..|]. intros a ->. by eapply read_answer_valid.
Qed.

Lemma ask_run {L : Type} (idx : L → nat) generate s w o w' :
  gen_ok idx generate → loop_inv s w →
  ask idx generate s w = (o, w') →
  after (λ r w', loop_inv (default s r) w') o w'.
Proof.
  intros Hgen [Hch (e & Hlast & Hs & Ht & Hu)]. unfold ask.
  rewrite bind_run. destruct (generate w) as [og w1] eqn:Hg.
  apply Hgen in Hg as [Hj1 Hg].
  destruct og as [[[q loc]|]|ex]; last first.
  { intros [= <- <-]. split; [by rewrite Hj1|done]. }
  { rewrite ret_run. intros [= <- <-]. rewrite /after /loop_inv /= Hj1.
    split; [done|]. split; [done|]. exists e. by rewrite /shows Hg. }
  destruct Hg as [Hfresh Hu1]. rewrite bind_run.
  destruct (display_question _ _ _ w1) as [oa w2] eqn:Hd.
  apply display_question_run in Hd as (Hu2 & Hj2 & _).
  destruct oa as [a|ex]; last first.
  { intros [= <- <-]. split; [by rewrite Hj2 Hj1|done]. }
  rewrite bind_run /note ret_run. intros [= <- <-].
  rewrite /after /loop_inv /= Hj2 Hj1.
  assert (chain origin (journal w ++
    [ {| snap_score := if decide (a = q_correct q) then score s + 1 else score s;
         snap_total := total_questions s + 1;
         snap_used := used_indices w2;
         snap_answer := a; snap_correct := q_correct q;
         snap_idx := idx loc |} ])) as Hch'.
  { eapply chain_snoc; [done..|]. rewrite /answered /= Hu2 Hu1 Ht Hs Hu.
    split_and!; [done|repeat case_decide; (lia || done)|done|done]. }
  split; [done|]. split; [done|].
  eexists. rewrite last_cons last_snoc. split; [reflexivity|]. done.
Qed.

Lemma for_range_run n body s w o w' :
  (∀ s w o w', loop_inv s w → body s w = (o, w') →
               after (λ r w', loop_inv (default s r) w') o w') →
  loop_inv s w →
  for_range n body s w = (o, w') →
  after loop_inv o w'.
Proof.
  intros Hbody. revert s w.
  induction n as [|n IH]; intros s w Hinv.
  { rewrite /= ret_run. intros [= <- <-]. split; [apply Hinv|done]. }
  cbn [for_range]. rewrite bind_run.
  destruct (body s w) as [ob w1] eqn:Hb.
  apply Hbody in Hb as [Hch Hb]; [|done].
  destruct ob as [[s1|]|ex].
  - by apply IH.
  - rewrite ret_run. by intros [= <- <-].
  - by intros [= <- <-].
Qed.

Lemma run_test_run pool prefs w o w' :
  run_test pool prefs w = (o, w') →
  after (λ r w', ∃ e, last (origin :: journal w') = Some e
                      ∧ r_score r = snap_score e ∧ r_total r = snap_total e
                      ∧ r_percentage r = percentage (r_score r) (r_total r)
                      ∧ r_band r = remark (r_percentage r)) o w'.
Proof.
  unfold run_test. rewrite bind_run.
  set (w0 := set_journal [] (set_used ∅ w)).
  set (s0 := {| score := 0; total_questions := 0; question_number := 1 |}).
  assert (loop_inv s0 w0) as H0.
  { split; [constructor|]. by exists origin. }
  cbv beta iota. rewrite bind_run.
  destruct (for_range _ _ s0 w0) as [o1 w1] eqn:H1.
  apply for_range_run in H1 as [Hc1 H1]; [|
    by intros ????; apply ask_run, choice_question_gen_ok | done].
  destruct o1 as [s1|ex]; [|by intros [= <- <-]].
  rewrite bind_run.
  destruct (for_range _ _ s1 w1) as [o2 w2] eqn:H2.
  apply for_range_run in H2 as [Hc2 H2]; [|
    by intros ????; apply ask_run, choice_question_gen_ok | done].
  destruct o2 as [s2|ex]; [|by intros [= <- <-]].
  rewrite bind_run.
  destruct (for_range _ _ s2 w2) as [o3 w3] eqn:H3.
  apply for_range_run in H3 as [Hc3 H3]; [|
    by intros ????; apply ask_run, generate_tf_question_gen_ok | done].
  destruct o3 as [s3|ex]; [|by intros [= <- <-]].
  rewrite ret_run. intros [= <- <-]. split; [done|].
  destruct H3 as [_ (e & Hlast & Hs & Ht & _)]. exists e. by rewrite /= Hs Ht.
Qed.

(** ** Trimming and loading *)

Lemma lstrip_spec (s : str) :
  ∃ pre, s = pre ++ lstrip s
    ∧ Forall (λ c, isspace c = true) pre
    ∧ ∀ c, head (lstrip s) = Some c → isspace c = false.
Proof.
  induction s as [|c s (pre & Hs & Hpre & Hhd)].
  - by exists [].
  - simpl. destruct (isspace c) eqn:Hc.
    + exists (c :: pre). split_and!; [by rewrite /= -Hs|by constructor|done].
    + exists []. split_and!; [done|done|]. by intros ? [= <-].
Qed.

Lemma strip_spec (s : str) :
  ∃ pre post, s = pre ++ strip s ++ post
    ∧ Forall (λ c, isspace c = true) pre
    ∧ Forall (λ c, isspace c = true) post
    ∧ trimmed (strip s).
Proof.
  destruct (lstrip_spec s) as (pre & Hs & Hpre & Hhd).
  destruct (lstrip_spec (reverse (lstrip s))) as (erp & Hr & Herp & Hlast).
  unfold strip, rstrip.
  set (t := lstrip s) in *. set (u := lstrip (reverse t)) in *.
  assert (t = reverse u ++ reverse erp) as Ht.
  { by rewrite -reverse_app -Hr reverse_involutive. }
  exists pre, (reverse erp). split_and!.
  - by rewrite -Ht.
  - done.
  - by apply Forall_reverse.
  - split; intros c Hc.
    + apply Hhd. rewrite Ht. destruct (reverse u); [done|]. by simpl in *.
    + apply Hlast. by rewrite last_reverse in Hc.
Qed.

Lemma load_row_record (data : list item) (row : list str) :
  load_row data row = data ++ option_list (row_record row).
Proof.
  unfold load_row, row_record.
  destruct row as [|f0 [|f1 row]].
  - case_decide; simpl in *; [lia|]. by rewrite app_nil_r.
  - case_decide; simpl in *; [lia|]. by rewrite app_nil_r.
  - case_decide; simpl in *; [|lia].
    destruct (strip f0), (strip f1); simpl; by rewrite ?app_nil_r.
Qed.

Lemma foldl_load_row (data : list item) (rows : list (list str)) :
  foldl load_row data rows = data ++ omap row_record rows.
Proof.
  revert data. induction rows as [|row rows IH]; intros data; simpl.
  - by rewrite app_nil_r.
  - rewrite IH load_row_record -app_assoc. by destruct (row_record row).
Qed.

(** * The claims *)

(** ** True/False questions *)

(** C1. With exactly one index available and the coin on False,
    [generate_tf_question] returns neither a question nor [None]:
    [random.choice] is called on the empty list of the other available
    indices and [IndexError] is raised, the one index having been added to
    the used set already. (In every other case the generator does as C1
    says: [tf_empty], [tf_none_inv] and [tf_success_run].) *)
Theorem generate_tf_question_single_false_raises
  (pool : list item) (w : world) :
  length (available pool (used_indices w)) = 1%nat →
  coin w = false →
  ∃ c, available pool (used_indices w) = [c]
    ∧ fst (generate_tf_question pool w) = Raise IndexError
    ∧ used_indices (snd (generate_tf_question pool w))
      = {[ c ]} ∪ used_indices w.
Proof.
  intros Hlen Hcoin.
  destruct (tf_crash pool w Hlen Hcoin) as (c & w' & Hrun & Hav & Hu & _).
  exists c. by rewrite Hrun.
Qed.

Lemma generate_tf_question_single_false_raises_witness :
  length (available (take 1 http_pool)
            (used_indices (start (tape_of [1%nat]) []))) = 1%nat
  ∧ coin (start (tape_of [1%nat]) []) = false
  ∧ ∃ c, available (take 1 http_pool)
           (used_indices (start (tape_of [1%nat]) [])) = [c]
      ∧ fst (generate_tf_question (take 1 http_pool)
               (start (tape_of [1%nat]) [])) = Raise IndexError
      ∧ used_indices (snd (generate_tf_question (take 1 http_pool)
                             (start (tape_of [1%nat]) [])))
        = {[ c ]} ∪ used_indices (start (tape_of [1%nat]) []).
Proof.
  split; [reflexivity|]. split; [reflexivity|].
  apply (generate_tf_question_single_false_raises
           (take 1 http_pool) (start (tape_of [1%nat]) []));
    reflexivity.
Defined.

(** C5. Every True/False question produced has the options
    [["True", "False"]]; on polarity True its prompt pairs the term of the
    selected record with that record's own definition and the label is
    ["1"]; on polarity False the prompt pairs the term with the definition
    of the record at a different index and the label is ["2"]. *)
Theorem generate_tf_question_polarity
  (pool : list item) (w w' : world) (q : question) (loc : tf_locals) :
  generate_tf_question pool w = (Ret (Some (q, loc)), w') →
  ∃ it : item,
    pool !! tf_correct_idx loc = Some it
    ∧ q_options q = [lit "True"; lit "False"]
    ∧ (is_true loc = true →
         q_text q = tf_prompt (term it) (definition it)
         ∧ q_correct q = lit "1")
    ∧ (is_true loc = false →
         ∃ (j : nat) (other : item),
           wrong_idx loc = Some j ∧ j ≠ tf_correct_idx loc
           ∧ pool !! j = Some other
           ∧ q_text q = tf_prompt (term it) (definition other)
           ∧ q_correct q = lit "2").
Proof.
  intros (it & _ & Hit & _ & _ & _ & _ & Hopts & Hpol)%tf_inv.
  exists it. split_and!; [done..| |]; intros E; rewrite E in Hpol.
  - by destruct Hpol as (_ & ? & ?).
  - destruct Hpol as (j & other & ? & _ & ? & ? & ? & ?). by exists j, other.
Qed.

Lemma generate_tf_question_polarity_witness :
  ∃ q loc w',
    generate_tf_question http_pool (start (tape_of [1; 2; 0]%nat) [])
    = (Ret (Some (q, loc)), w')
    ∧ is_true loc = false ∧ tf_correct_idx loc = 2%nat
    ∧ wrong_idx loc = Some 0%nat
    ∧ ∃ it : item,
        http_pool !! tf_correct_idx loc = Some it
        ∧ q_options q = [lit "True"; lit "False"]
        ∧ (is_true loc = true →
             q_text q = tf_prompt (term it) (definition it)
             ∧ q_correct q = lit "1")
        ∧ (is_true loc = false →
             ∃ (j : nat) (other : item),
               wrong_idx loc = Some j ∧ j ≠ tf_correct_idx loc
               ∧ http_pool !! j = Some other
               ∧ q_text q = tf_prompt (term it) (definition other)
               ∧ q_correct q = lit "2").
Proof.
  eexists _, _, _. split; [vm_compute; reflexivity|].
  split; [reflexivity|]. split; [reflexivity|]. split; [reflexivity|].
  eapply (generate_tf_question_polarity http_pool
            (start (tape_of [1; 2; 0]%nat) [])).
  vm_compute; reflexivity.
Defined.

(** ** Choice questions *)

Lemma choice_question_none_iff shown prompt pool (k : Z) (w : world) :
  fst (choice_question shown prompt pool k w) = Ret None
  ↔ Z.of_nat (length (available pool (used_indices w))) < k.
Proof.
  split.
  - destruct (choice_question shown prompt pool k w) as [o w'] eqn:Hrun.
    simpl. intros ->. by apply choice_question_none_inv in Hrun as [? _].
  - intros Hk. by rewrite choice_question_insufficient.
Qed.

Lemma choice_question_some shown prompt pool (k : Z) (w : world) :
  1 ≤ k → k ≤ Z.of_nat (length (available pool (used_indices w))) →
  ∃ q loc, fst (choice_question shown prompt pool k w) = Ret (Some (q, loc)).
Proof.
  intros H1 Hk.
  destruct (choice_question_success shown prompt pool k w)
    as (q & loc & w' & Hrun & _); [lia|].
  exists q, loc. by rewrite Hrun.
Qed.

(** C2. The definition-choice and the term-choice generator return [None]
    if and only if fewer than [k] indices are available; with at least [k]
    available, [k] being a number of choices (at least one; the session asks
    for two or more), they return a question and do not raise. *)
Theorem choice_generators_none_iff_insufficient
  (pool : list item) (k : Z) (w : world) :
  let n := Z.of_nat (length (available pool (used_indices w))) in
  (fst (generate_definition_question pool k w) = Ret None ↔ n < k)
  ∧ (fst (generate_term_question pool k w) = Ret None ↔ n < k)
  ∧ (1 ≤ k → k ≤ n →
       (∃ q loc,
          fst (generate_definition_question pool k w) = Ret (Some (q, loc)))
       ∧ (∃ q loc,
            fst (generate_term_question pool k w) = Ret (Some (q, loc)))).
Proof.
  rewrite generate_definition_question_unfold generate_term_question_unfold.
  split_and!; [apply choice_question_none_iff..|].
  intros H1 Hk. split; by apply choice_question_some.
Qed.

Lemma choice_generators_none_iff_insufficient_witness :
  1 ≤ 4
  ∧ 4 ≤ Z.of_nat (length (available http_pool
                            (used_indices (start (tape_of []) []))))
  ∧ (∃ q loc,
       fst (generate_definition_question http_pool 4 (start (tape_of []) []))
       = Ret (Some (q, loc)))
  ∧ (∃ q loc,
       fst (generate_term_question http_pool 4 (start (tape_of []) []))
       = Ret (Some (q, loc))).
Proof.
  split; [lia|]. split; [vm_compute; discriminate|].
  apply (choice_generators_none_iff_insufficient
           http_pool 4 (start (tape_of []) []));
    [lia|vm_compute; discriminate].
Defined.

Lemma choice_question_label shown prompt pool (k : Z) (w w' : world) q loc :
  choice_question shown prompt pool k w = (Ret (Some (q, loc)), w') →
  ∃ (it : item) (j : nat),
    pool !! correct_idx loc = Some it
    ∧ Z.of_nat (length (q_options q)) = k
    ∧ (1 ≤ j)%nat ∧ Z.of_nat j ≤ k
    ∧ q_correct q = str_of_nat j
    ∧ q_options q !! (j - 1)%nat = Some (shown it).
Proof.
  intros (_ & it & pos & _ & Hit & _ & _ & _ & _ & _ & Hlen & Hperm & Hpos
          & Hlabel & _)%choice_question_inv.
  assert (Z.of_nat (length (q_options q)) = k) as Hk.
  { rewrite Hperm /= length_fmap. lia. }
  apply lookup_lt_Some in Hpos as Hlt.
  exists it, (pos + 1)%nat. rewrite Nat.add_sub.
  split_and!; [done|done|lia|lia|done|done].
Qed.

(** C3. A choice question produced with [k] options has a label [str(j)]
    with [1 ≤ j ≤ k], and the option at position [j] (counting from one)
    is the text of the correct record: its definition for a
    definition-choice question, its term for a term-choice question. Texts
    of other records may be equal to it. *)
Theorem choice_label_points_at_correct_text
  (pool : list item) (k : Z) (w w' : world) (q : question)
  (loc : choice_locals) :
  (generate_definition_question pool k w = (Ret (Some (q, loc)), w') →
   ∃ (it : item) (j : nat),
     pool !! correct_idx loc = Some it
     ∧ Z.of_nat (length (q_options q)) = k
     ∧ (1 ≤ j)%nat ∧ Z.of_nat j ≤ k
     ∧ q_correct q = str_of_nat j
     ∧ q_options q !! (j - 1)%nat = Some (definition it))
  ∧ (generate_term_question pool k w = (Ret (Some (q, loc)), w') →
     ∃ (it : item) (j : nat),
       pool !! correct_idx loc = Some it
       ∧ Z.of_nat (length (q_options q)) = k
       ∧ (1 ≤ j)%nat ∧ Z.of_nat j ≤ k
       ∧ q_correct q = str_of_nat j
       ∧ q_options q !! (j - 1)%nat = Some (term it)).
Proof.
  rewrite generate_definition_question_unfold generate_term_question_unfold.
  split; apply choice_question_label.
Qed.

Lemma choice_label_points_at_correct_text_witness :
  ∃ q loc w',
    generate_definition_question twin_pool 3
      (start (tape_of [1; 0; 0; 0; 1]%nat) [])
    = (Ret (Some (q, loc)), w')
    ∧ correct_idx loc = 1%nat
    ∧ q_options q = [lit "plant"; lit "vehicle"; lit "vehicle"]
    ∧ q_correct q = lit "2"
    ∧ ∃ (it : item) (j : nat),
        twin_pool !! correct_idx loc = Some it
        ∧ Z.of_nat (length (q_options q)) = 3
        ∧ (1 ≤ j)%nat ∧ Z.of_nat j ≤ 3
        ∧ q_correct q = str_of_nat j
        ∧ q_options q !! (j - 1)%nat = Some (definition it).
Proof.
  eexists _, _, _. split; [vm_compute; reflexivity|].
  split; [reflexivity|]. split; [reflexivity|]. split; [reflexivity|].
  eapply (choice_label_points_at_correct_text twin_pool 3
            (start (tape_of [1; 0; 0; 0; 1]%nat) [])).
  vm_compute; reflexivity.
Defined.

(** C6. When a choice generator succeeds with [k] choices, the used set
    afterwards is the used set before plus the one index [correct_idx],
    which was available; the [k - 1] distractor indices are pairwise
    distinct, available, different from [correct_idx], and none of them
    is in the used set afterwards. *)
Theorem choice_question_consumes_correct_only
  (pool : list item) (k : Z) (w w' : world) (q : question)
  (loc : choice_locals) :
  generate_definition_question pool k w = (Ret (Some (q, loc)), w')
  ∨ generate_term_question pool k w = (Ret (Some (q, loc)), w') →
  correct_idx loc ∈ available pool (used_indices w)
  ∧ used_indices w' = {[ correct_idx loc ]} ∪ used_indices w
  ∧ Z.of_nat (length (distractor_indices loc)) = k - 1
  ∧ NoDup (distractor_indices loc)
  ∧ ∀ d, d ∈ distractor_indices loc →
         d ∈ available pool (used_indices w)
         ∧ d ≠ correct_idx loc
         ∧ d ∉ used_indices w'.
Proof.
  rewrite generate_definition_question_unfold generate_term_question_unfold.
  intros [Hrun|Hrun];
    apply choice_question_inv in Hrun
      as (_ & it & pos & Hc & _ & Hu & _ & _ & Hnd & Hds & Hlen & _);
    (split_and!; [done..|]);
    intros d [Hd Hne]%Hds; (split_and!; [done..|]);
    apply elem_of_available in Hd as [_ Hd];
    rewrite Hu elem_of_union elem_of_singleton; by intros [?|?].
Qed.

Lemma choice_question_consumes_correct_only_witness :
  ∃ q loc w',
    generate_definition_question http_pool 4
      (start (tape_of [0; 1; 2; 0; 1; 1; 1]%nat) [])
    = (Ret (Some (q, loc)), w')
    ∧ correct_idx loc = 0%nat
    ∧ distractor_indices loc = [2; 1; 3]%nat
    ∧ elements (used_indices w') = [0%nat]
    ∧ correct_idx loc
        ∈ available http_pool
            (used_indices (start (tape_of [0; 1; 2; 0; 1; 1; 1]%nat) []))
    ∧ used_indices w'
      = {[ correct_idx loc ]}
          ∪ used_indices (start (tape_of [0; 1; 2; 0; 1; 1; 1]%nat) [])
    ∧ Z.of_nat (length (distractor_indices loc)) = 4 - 1
    ∧ NoDup (distractor_indices loc)
    ∧ ∀ d, d ∈ distractor_indices loc →
           d ∈ available http_pool
                 (used_indices (start (tape_of [0; 1; 2; 0; 1; 1; 1]%nat) []))
           ∧ d ≠ correct_idx loc
           ∧ d ∉ used_indices w'.
Proof.
  eexists _, _, _. split; [vm_compute; reflexivity|].
  split; [reflexivity|]. split; [reflexivity|]. split; [reflexivity|].
  eapply (choice_question_consumes_correct_only http_pool 4
            (start (tape_of [0; 1; 2; 0; 1; 1; 1]%nat) [])).
  left. vm_compute; reflexivity.
Defined.

(** C10. A generator that returns [None] leaves the used set as it was
    (and the rest of the world with it): the test of sufficiency comes
    before any index is added. *)
Theorem generators_none_leaves_used_unchanged
  (pool : list item) (k : Z) (w w' : world) :
  generate_definition_question pool k w = (Ret None, w')
  ∨ generate_term_question pool k w = (Ret None, w')
  ∨ generate_tf_question pool w = (Ret None, w') →
  used_indices w' = used_indices w ∧ w' = w.
Proof.
  rewrite generate_definition_question_unfold generate_term_question_unfold.
  intros [Hrun|[Hrun|Hrun]].
  - by apply choice_question_none_inv in Hrun as [_ ->].
  - by apply choice_question_none_inv in Hrun as [_ ->].
  - by apply tf_none_inv in Hrun as [_ ->].
Qed.

Lemma generators_none_leaves_used_unchanged_witness :
  generate_term_question http_pool 2 nearly_spent = (Ret None, nearly_spent)
  ∧ used_indices nearly_spent = used_indices nearly_spent
  ∧ nearly_spent = nearly_spent.
Proof.
  split; [reflexivity|].
  apply (generators_none_leaves_used_unchanged http_pool 2
           nearly_spent nearly_spent).
  right; left. reflexivity.
Defined.

(** ** The session *)

Lemma choice_question_used_mono shown prompt pool (k : Z) (w : world) :
  used_indices w ⊆ used_indices (snd (choice_question shown prompt pool k w)).
Proof.
  destruct (decide (Z.of_nat (length (available pool (used_indices w))) < k)).
  { by rewrite choice_question_insufficient. }
  destruct (decide (k ≤ 0)) as [Hk|Hk].
  - destruct (choice_question_nonpositive shown prompt pool k w Hk)
      as (e & w' & -> & Hu & _).
    done.
  - destruct (choice_question_success shown prompt pool k w)
      as (q & loc & w' & -> & it & pos & _ & _ & Hu & _); [lia|].
    rewrite /= Hu. apply union_subseteq_r.
Qed.

Lemma generate_tf_question_used_mono pool (w : world) :
  used_indices w ⊆ used_indices (snd (generate_tf_question pool w)).
Proof.
  destruct (generate_tf_question pool w) as [[[[q loc]|]|e] w'] eqn:Hrun.
  - apply tf_inv in Hrun as (it & _ & _ & _ & Hu & _).
    rewrite /= Hu. apply union_subseteq_r.
  - by apply tf_none_inv in Hrun as [_ ->].
  - destruct (decide (available pool (used_indices w) = [])) as [E|Hne].
    { by rewrite tf_empty in Hrun. }
    destruct (decide (coin w = true
                      ∨ (2 ≤ length (available pool (used_indices w)))%nat))
      as [Hc|Hc].
    + destruct (tf_success_run pool w Hne Hc) as (q1 & loc1 & w1 & Hrun1 & _).
      congruence.
    + destruct (tf_crash pool w) as (c & w1 & Hrun1 & _ & Hu & _).
      * destruct (available pool (used_indices w)) as [|? [|? ?]];
          simpl in *; [done|done|]. exfalso. apply Hc. right. lia.
      * destruct (coin w); [|done]. exfalso. apply Hc. by left.
      * assert (w' = w1) as -> by congruence.
        rewrite /= Hu. apply union_subseteq_r.
Qed.

Lemma chain_total e0 j i e :
  chain e0 j → j !! i = Some e →
  snap_total e = snap_total e0 + Z.of_nat i + 1.
Proof.
  intros Hch. revert i e.
  induction Hch as [e0|e0 e1 j (Ht & _) Hch IH]; intros [|i] e He;
    simplify_eq/=; [lia|].
  rewrite (IH i e He). lia.
Qed.

(** Two entries of a journal, the first earlier than the second. *)
Lemma chain_later e0 j i k e e' :
  chain e0 j → (i < k)%nat → j !! i = Some e → j !! k = Some e' →
  snap_used e ⊆ snap_used e'
  ∧ snap_idx e ∈ snap_used e
  ∧ (snap_idx e' ∉ snap_used e)
  ∧ snap_idx e ≠ snap_idx e'.
Proof.
  intros Hch Hik Hi Hk.
  destruct (lookup_lt_is_Some_2 (e0 :: j) i) as [b0 Hb0].
  { apply lookup_lt_Some in Hi. simpl. lia. }
  destruct (lookup_lt_is_Some_2 (e0 :: j) k) as [p Hp].
  { apply lookup_lt_Some in Hk. simpl. lia. }
  pose proof (chain_lookup _ _ _ _ _ Hch Hb0 Hi) as (_ & _ & _ & Hue).
  pose proof (chain_lookup _ _ _ _ _ Hch Hp Hk) as (_ & _ & Hfresh & Hue').
  assert (snap_used e ⊆ snap_used p) as Hsub.
  { apply (chain_grows e0 j (S i) k); [done|lia|done..]. }
  assert (snap_idx e ∈ snap_used e) as Hin.
  { rewrite Hue. apply elem_of_union_l. by apply elem_of_singleton. }
  split_and!.
  - rewrite Hue'. etransitivity; [done|]. apply union_subseteq_r.
  - done.
  - intros Hbad. by apply Hfresh, Hsub.
  - intros Heq. apply Hfresh. rewrite -Heq. by apply Hsub.
Qed.

(** C4. The used set only grows: whatever a generator does, the set it
    leaves contains the set it found. A generator that returns a question
    has drawn its [correct_idx] outside the used set and has added exactly
    that index. In a session, of two answered questions the later one has
    the larger used set and a [correct_idx] that is not in the used set of
    the earlier one, hence different from the earlier [correct_idx]. *)
Theorem used_indices_grow_and_exclude (pool : list item) :
  (∀ k w,
     used_indices w
       ⊆ used_indices (snd (generate_definition_question pool k w))
     ∧ used_indices w
         ⊆ used_indices (snd (generate_term_question pool k w))
     ∧ used_indices w ⊆ used_indices (snd (generate_tf_question pool w)))
  ∧ (∀ k w w' q loc,
       generate_definition_question pool k w = (Ret (Some (q, loc)), w')
       ∨ generate_term_question pool k w = (Ret (Some (q, loc)), w') →
       (correct_idx loc ∉ used_indices w)
       ∧ used_indices w' = {[ correct_idx loc ]} ∪ used_indices w)
  ∧ (∀ w w' q loc,
       generate_tf_question pool w = (Ret (Some (q, loc)), w') →
       (tf_correct_idx loc ∉ used_indices w)
       ∧ used_indices w' = {[ tf_correct_idx loc ]} ∪ used_indices w)
  ∧ (∀ prefs w i k e e',
       (i < k)%nat →
       journal (snd (run_test pool prefs w)) !! i = Some e →
       journal (snd (run_test pool prefs w)) !! k = Some e' →
       snap_used e ⊆ snap_used e'
       ∧ snap_idx e ∈ snap_used e
       ∧ (snap_idx e' ∉ snap_used e)
       ∧ snap_idx e ≠ snap_idx e').
Proof.
  split_and!.
  - intros k w. split_and!.
    + apply choice_question_used_mono.
    + apply choice_question_used_mono.
    + apply generate_tf_question_used_mono.
  - intros k w w' q loc Hrun.
    assert (gen_ok correct_idx (generate_definition_question pool k)) as Hd
      by apply choice_question_gen_ok.
    assert (gen_ok correct_idx (generate_term_question pool k)) as Ht
      by apply choice_question_gen_ok.
    destruct Hrun as [Hrun|Hrun]; [by apply Hd in Hrun as [_ ?]|
                                   by apply Ht in Hrun as [_ ?]].
  - intros w w' q loc Hrun.
    by apply generate_tf_question_gen_ok in Hrun as [_ ?].
  - intros prefs w i k e e' Hik Hi Hk.
    destruct (run_test pool prefs w) as [o w'] eqn:Hrun.
    apply run_test_run in Hrun as [Hch _].
    by eapply chain_later.
Qed.

Lemma used_indices_grow_and_exclude_witness :
  ∃ e e',
    journal (snd (run_test http_pool demo_prefs demo_world)) !! 0%nat = Some e
    ∧ journal (snd (run_test http_pool demo_prefs demo_world)) !! 2%nat
      = Some e'
    ∧ snap_idx e = 0%nat ∧ snap_idx e' = 2%nat
    ∧ elements (snap_used e) = [0%nat]
    ∧ elements (snap_used e') = [2; 1; 0]%nat
    ∧ snap_used e ⊆ snap_used e'
    ∧ snap_idx e ∈ snap_used e
    ∧ (snap_idx e' ∉ snap_used e)
    ∧ snap_idx e ≠ snap_idx e'.
Proof.
  eexists _, _. split; [vm_compute; reflexivity|].
  split; [vm_compute; reflexivity|].
  split; [reflexivity|]. split; [reflexivity|].
  split; [reflexivity|]. split; [reflexivity|].
  pose proof (used_indices_grow_and_exclude http_pool) as (_ & _ & _ & H).
  apply (H demo_prefs demo_world 0%nat 2%nat);
    [lia|vm_compute; reflexivity..].
Defined.

(** C9. In every session the score and the number of answered questions
    start at 0; each answered question adds exactly 1 to the number of
    answered questions and adds to the score 1 if the label typed equals
    the correct label and 0 otherwise; so [0 ≤ score ≤ total_questions]
    after every answered question and in the final report, where
    [total_questions] is the number of questions answered. *)
Theorem score_between_zero_and_total
  (pool : list item) (prefs : preferences) (w : world) :
  let o := fst (run_test pool prefs w) in
  let j := journal (snd (run_test pool prefs w)) in
  snap_score origin = 0 ∧ snap_total origin = 0
  ∧ (∀ i e e', (origin :: j) !! i = Some e → j !! i = Some e' →
       snap_total e' = snap_total e + 1
       ∧ snap_score e' =
           snap_score e
           + (if decide (snap_answer e' = snap_correct e') then 1 else 0))
  ∧ (∀ i e, j !! i = Some e →
       0 ≤ snap_score e ≤ snap_total e ∧ snap_total e = Z.of_nat i + 1)
  ∧ (∀ r, o = Ret r →
       0 ≤ r_score r ≤ r_total r
       ∧ r_total r = Z.of_nat (length j)
       ∧ ∃ e, last (origin :: j) = Some e
              ∧ r_score r = snap_score e ∧ r_total r = snap_total e).
Proof.
  destruct (run_test pool prefs w) as [o w'] eqn:Hrun. simpl.
  apply run_test_run in Hrun as [Hch Hend].
  assert (0 ≤ snap_score origin ≤ snap_total origin) as H0 by done.
  pose proof (chain_bounds _ _ Hch H0) as Hb. rewrite Forall_lookup in Hb.
  split_and!; try done.
  - intros i e e' He He'.
    by destruct (chain_lookup _ _ _ _ _ Hch He He') as (? & ? & _).
  - intros i e He. split; [by eapply Hb|].
    by rewrite (chain_total _ _ _ _ Hch He).
  - intros r ->. destruct Hend as (e & Hlast & Hs & Ht & _).
    rewrite Hs Ht.
    destruct (journal w') as [|e1 j] eqn:Hj using rev_ind.
    + simplify_eq/=. split_and!; try done. by exists origin.
    + clear IHj. rewrite last_cons last_snoc in Hlast. simplify_eq.
      assert ((j ++ [e]) !! length j = Some e) as He
        by apply list_lookup_middle, eq_refl.
      pose proof (Hb _ _ He) as Hbe.
      pose proof (chain_total _ _ _ _ Hch He) as Hte.
      split; [done|]. split; [rewrite Hte length_app /=; lia|].
      exists e. by rewrite last_cons last_snoc.
Qed.

Lemma score_between_zero_and_total_witness :
  ∃ r e1 e2,
    fst (run_test http_pool demo_prefs demo_world) = Ret r
    ∧ journal (snd (run_test http_pool demo_prefs demo_world)) !! 0%nat
      = Some e1
    ∧ journal (snd (run_test http_pool demo_prefs demo_world)) !! 1%nat
      = Some e2
    ∧ r_score r = 2 ∧ r_total r = 3
    ∧ (snap_score e1, snap_total e1) = (1, 1)
    ∧ (snap_score e2, snap_total e2) = (1, 2)
    ∧ (0 ≤ snap_score e2 ≤ snap_total e2
       ∧ snap_total e2 = Z.of_nat 1 + 1)
    ∧ (snap_total e2 = snap_total e1 + 1
       ∧ snap_score e2 =
           snap_score e1
           + (if decide (snap_answer e2 = snap_correct e2) then 1 else 0))
    ∧ 0 ≤ r_score r ≤ r_total r.
Proof.
  eexists _, _, _. split; [vm_compute; reflexivity|].
  split; [vm_compute; reflexivity|]. split; [vm_compute; reflexivity|].
  split; [reflexivity|]. split; [reflexivity|].
  split; [reflexivity|]. split; [reflexivity|].
  pose proof (score_between_zero_and_total http_pool demo_prefs demo_world)
    as (_ & _ & Hstep & Hafter & Hend).
  split; [apply Hafter; vm_compute; reflexivity|].
  split; [apply (Hstep 1%nat); vm_compute; reflexivity|].
  eapply Hend. vm_compute; reflexivity.
Defined.

(** ** The final report *)

Lemma remark_cases (p : spec_float) :
  (ge p 90 = true → remark p = Excellent)
  ∧ (ge p 90 = false → ge p 80 = true → remark p = Great)
  ∧ (ge p 90 = false → ge p 80 = false → ge p 70 = true → remark p = Good)
  ∧ (ge p 90 = false → ge p 80 = false → ge p 70 = false →
     ge p 60 = true → remark p = Passed)
  ∧ (ge p 90 = false → ge p 80 = false → ge p 70 = false →
     ge p 60 = false → remark p = KeepPracticing).
Proof.
  unfold remark.
  destruct (ge p 90), (ge p 80), (ge p 70), (ge p 60); by split_and!.
Qed.

(** C7. The percentage reported is [score / total_questions * 100] in
    binary64 arithmetic, and 0 when no question was answered; the band is
    Excellent from 90, otherwise Great from 80, otherwise Good from 70,
    otherwise Passed from 60, otherwise Keep practicing; 10 out of 10
    gives 100.0 and Excellent. For every session of up to 100 questions
    the band is the one exact arithmetic gives. *)
Theorem report_percentage_and_band :
  (∀ score total, total ≤ 0 → percentage score total = S754_zero false)
  ∧ (∀ score total, total > 0 →
       percentage score total
       = SFmul prec emax
           (SFdiv prec emax (float_of_int score) (float_of_int total))
           (float_of_int 100))
  ∧ (∀ p,
       (ge p 90 = true → remark p = Excellent)
       ∧ (ge p 90 = false → ge p 80 = true → remark p = Great)
       ∧ (ge p 90 = false → ge p 80 = false → ge p 70 = true →
          remark p = Good)
       ∧ (ge p 90 = false → ge p 80 = false → ge p 70 = false →
          ge p 60 = true → remark p = Passed)
       ∧ (ge p 90 = false → ge p 80 = false → ge p 70 = false →
          ge p 60 = false → remark p = KeepPracticing))
  ∧ (∀ pool prefs w r,
       fst (run_test pool prefs w) = Ret r →
       r_percentage r = percentage (r_score r) (r_total r)
       ∧ r_band r = remark (r_percentage r))
  ∧ percentage 10 10 = float_of_int 100
  ∧ remark (percentage 10 10) = Excellent
  ∧ bands_agree_upto 100 = true.
Proof.
  split_and!.
  - intros score total Ht. unfold percentage. by rewrite decide_False; [|lia].
  - intros score total Ht. unfold percentage. by rewrite decide_True.
  - apply remark_cases.
  - intros pool prefs w r Hr.
    destruct (run_test pool prefs w) as [o w'] eqn:Hrun.
    simpl in Hr. subst o.
    by apply run_test_run in Hrun as [_ (e & _ & _ & _ & ? & ?)].
  - reflexivity.
  - reflexivity.
  - vm_compute. reflexivity.
Qed.

Lemma report_percentage_and_band_witness :
  ∃ r,
    fst (run_test http_pool demo_prefs demo_world) = Ret r
    ∧ r_score r = 2 ∧ r_total r = 3 ∧ r_band r = Passed
    ∧ ge (percentage 2 3) 60 = true ∧ ge (percentage 2 3) 70 = false
    ∧ r_percentage r = percentage (r_score r) (r_total r)
    ∧ r_band r = remark (r_percentage r).
Proof.
  eexists. split; [vm_compute; reflexivity|].
  split; [reflexivity|]. split; [reflexivity|]. split; [reflexivity|].
  split; [reflexivity|]. split; [reflexivity|].
  pose proof report_percentage_and_band as (_ & _ & _ & H & _).
  apply (H http_pool demo_prefs demo_world). vm_compute; reflexivity.
Defined.

(** ** The loader *)

(** C8. From the rows [csv.reader] yields, [load_csv] keeps, in their
    order, one record for each row that has two fields or more whose first
    two fields are not empty once trimmed, made of these two trimmed
    fields; every other row gives no record. Trimming removes a run of
    white space at each end and leaves none there. *)
Theorem load_csv_keeps_usable_rows (rows : list (list str)) :
  load_csv (Rows rows) = omap row_record rows
  ∧ (∀ row, (length row < 2)%nat → row_record row = None)
  ∧ (∀ row f0 f1, row !! 0%nat = Some f0 → row !! 1%nat = Some f1 →
       (strip f0 = [] ∨ strip f1 = [] → row_record row = None)
       ∧ (strip f0 ≠ [] → strip f1 ≠ [] →
          row_record row = Some {| term := strip f0; definition := strip f1 |}))
  ∧ (∀ s, trimmed (strip s)
          ∧ ∃ pre post, s = pre ++ strip s ++ post
              ∧ Forall (λ c, isspace c = true) pre
              ∧ Forall (λ c, isspace c = true) post).
Proof.
  split_and!.
  - unfold load_csv. by rewrite foldl_load_row.
  - intros [|f0 [|f1 row]] Hlen; simpl in *; [done|done|lia].
  - intros [|g0 [|g1 row]] f0 f1 H0 H1; simplify_eq/=. split.
    + intros Hempty. rewrite decide_False; [done|]. intros [? ?].
      by destruct Hempty.
    + intros ? ?. by rewrite decide_True.
  - intros s. destruct (strip_spec s) as (pre & post & ? & ? & ? & ?).
    split; [done|]. by exists pre, post.
Qed.

Lemma load_csv_keeps_usable_rows_witness :
  load_csv (Rows [ [lit " HTTP "; lit "HyperText Transfer Protocol "; lit "x"];
                   [lit "alone"];
                   [lit "  "; lit "blank term"];
                   [];
                   [lit "DNS"; lit "Domain Name System"] ])
  = [ {| term := lit "HTTP"; definition := lit "HyperText Transfer Protocol" |};
      {| term := lit "DNS"; definition := lit "Domain Name System" |} ]
  ∧ row_record [lit "alone"] = None
  ∧ row_record [lit "  "; lit "blank term"] = None
  ∧ row_record [lit " HTTP "; lit "HyperText Transfer Protocol "; lit "x"]
    = Some {| term := strip (lit " HTTP ");
              definition := strip (lit "HyperText Transfer Protocol ") |}.
Proof.
  pose proof (load_csv_keeps_usable_rows
    [ [lit " HTTP "; lit "HyperText Transfer Protocol "; lit "x"];
      [lit "alone"];
      [lit "  "; lit "blank term"];
      [];
      [lit "DNS"; lit "Domain Name System"] ]) as (Hload & Hshort & Hrow & _).
  split; [rewrite Hload; reflexivity|].
  split; [apply Hshort; simpl; lia|].
  split.
  - apply (Hrow _ (lit "  ") (lit "blank term")); [reflexivity..|].
    left. reflexivity.
  - apply (Hrow _ (lit " HTTP ") (lit "HyperText Transfer Protocol "));
      [reflexivity|reflexivity|discriminate|discriminate].
Defined.

(** * Further properties of [main.py] *)

(** ** Loading, counting and starting *)

Lemma row_record_Some (row : list str) (it : item) :
  row_record row = Some it →
  ∃ f0 f1, row !! 0%nat = Some f0 ∧ row !! 1%nat = Some f1
    ∧ it = {| term := strip f0; definition := strip f1 |}
    ∧ strip f0 ≠ [] ∧ strip f1 ≠ [].
Proof.
  destruct row as [|f0 [|f1 row]]; [done..|]. simpl.
  case_decide as H; [|done]. intros [= <-]. exists f0, f1.
  destruct H as [H0 H1]. by split_and!.
Qed.

Lemma counted_row_record (row : list str) :
  counted row = true ↔ is_Some (row_record row).
Proof.
  unfold counted, row_record.
  destruct row as [|f0 [|f1 row]]; simpl.
  - split; [done|by intros [? ?]].
  - split; [done|by intros [? ?]].
  - destruct (strip f0), (strip f1); simpl; split; intros H;
      try done; try (by destruct H); by eexists.
Qed.

(** X1. Every record [load_csv] returns has a term and a definition that
    are not empty and carry no white space at either end, whatever the
    file held and however reading it went. *)
Theorem load_csv_records_clean (file : csv_read) :
  Forall (λ it, term it ≠ [] ∧ definition it ≠ []
                ∧ trimmed (term it) ∧ trimmed (definition it))
         (load_csv file).
Proof.
  destruct file as [| |rows]; [constructor..|].
  unfold load_csv. rewrite foldl_load_row app_nil_l.
  apply Forall_forall. intros it Hit.
  apply list_elem_of_omap in Hit as (row & _ & Hrow).
  apply row_record_Some in Hrow as (f0 & f1 & _ & _ & -> & H0 & H1).
  destruct (strip_spec f0) as (_ & _ & _ & _ & _ & ?).
  destruct (strip_spec f1) as (_ & _ & _ & _ & _ & ?).
  by split_and!.
Qed.

Lemma omap_length_le {A B : Type} (f : A → option B) (l : list A) :
  (length (omap f l) ≤ length l)%nat.
Proof.
  induction l as [|x l IH]; csimpl; [done|]. destruct (f x); csimpl; lia.
Qed.

(** X2. [load_csv] treats every row on its own: the records of a file
    whose rows are [rows1] followed by [rows2] are the records of [rows1]
    followed by those of [rows2] (no header is skipped, no duplicate is
    dropped), and there are never more records than rows. *)
Theorem load_csv_rows_app (rows1 rows2 : list (list str)) :
  load_csv (Rows (rows1 ++ rows2))
  = load_csv (Rows rows1) ++ load_csv (Rows rows2)
  ∧ (length (load_csv (Rows rows1)) ≤ length rows1)%nat.
Proof.
  unfold load_csv. rewrite !foldl_load_row !app_nil_l. split.
  - apply omap_app.
  - apply omap_length_le.
Qed.

Lemma term_count_rows (rows : list (list str)) (n : nat) :
  foldl (λ n row, if counted row then (n + 1)%nat else n) n rows
  = (n + length (omap row_record rows))%nat.
Proof.
  revert n. induction rows as [|row rows IH]; intros n; csimpl; [lia|].
  rewrite IH. pose proof (counted_row_record row) as Hc.
  destruct (counted row), (row_record row) as [it|]; csimpl; try lia.
  - by destruct (proj1 Hc eq_refl).
  - by pose proof (proj2 Hc (ex_intro _ it eq_refl)).
Qed.

Lemma term_count_length (file : csv_read) :
  term_count file = length (load_csv file).
Proof.
  destruct file as [| |rows]; [done..|].
  unfold term_count, load_csv.
  by rewrite term_count_rows foldl_load_row.
Qed.

(** X3. The number of terms [select_csv_file] shows next to a file is the
    number of records [load_csv] returns for it, for every content of the
    file and when the file cannot be read (0 and no record). *)
Theorem term_count_is_loaded_length (file : csv_read) :
  term_count file = length (load_csv file).
Proof. apply term_count_length. Qed.

(** X4. [TestMaker.__init__] exits with status 1 exactly when the file
    gives no record, that is when the menu showed 0 terms for it;
    otherwise the pool is what [load_csv] returned and is not empty. *)
Theorem TestMaker_init_exits_iff_no_term (file : csv_read) :
  (TestMaker_init file = Exits 1 ↔ term_count file = 0%nat)
  ∧ (∀ status, TestMaker_init file = Exits status → status = 1)
  ∧ (∀ pool, TestMaker_init file = Goes pool →
       pool = load_csv file ∧ pool ≠ [] ∧ (0 < term_count file)%nat).
Proof.
  rewrite term_count_length. unfold TestMaker_init.
  destruct (load_csv file) as [|it pool]; simpl.
  - split_and!; [done|by intros ? [= <-]|done].
  - split_and!; [split; [done|lia]|done|].
    intros ? [= <-]. split_and!; [done|done|lia].
Qed.

Lemma TestMaker_init_exits_iff_no_term_witness :
  TestMaker_init (Rows [ [lit "HTTP"; lit " HyperText Transfer Protocol"] ])
  = Goes [ {| term := lit "HTTP";
              definition := lit "HyperText Transfer Protocol" |} ]
  ∧ TestMaker_init (Rows [ [lit "HTTP"]; [lit " "; lit "x"] ]) = Exits 1
  ∧ (1 = 1
     ∧ [ {| term := lit "HTTP";
            definition := lit "HyperText Transfer Protocol" |} ]
       = load_csv (Rows [ [lit "HTTP"; lit " HyperText Transfer Protocol"] ])
     ∧ [ {| term := lit "HTTP";
            definition := lit "HyperText Transfer Protocol" |} ] ≠ []
     ∧ (0 < term_count
              (Rows [ [lit "HTTP"; lit " HyperText Transfer Protocol"] ]))%nat).
Proof.
  split; [reflexivity|]. split; [reflexivity|].
  pose proof (TestMaker_init_exits_iff_no_term
                (Rows [ [lit "HTTP"; lit " HyperText Transfer Protocol"] ]))
    as (_ & _ & Hgo).
  pose proof (TestMaker_init_exits_iff_no_term
                (Rows [ [lit "HTTP"]; [lit " "; lit "x"] ]))
    as (_ & Hexit & _).
  split; [by apply Hexit|].
  by apply Hgo.
Defined.

(** ** The console *)

Lemma choose_file_spec {P : Type} (int_of : str → option Z)
  (csv_files : list P) (lines : list str) (o : outcome P) (rest : list str) :
  choose_file int_of csv_files lines = (o, rest) →
  match o with
  | Ret f =>
      ∃ skipped line choice,
        lines = skipped ++ line :: rest
        ∧ int_of line = Some choice
        ∧ 1 ≤ choice ≤ Z.of_nat (length csv_files)
        ∧ csv_files !! Z.to_nat (choice - 1) = Some f
        ∧ Forall (λ l, ∀ c, int_of l = Some c →
                       ¬ (1 ≤ c ≤ Z.of_nat (length csv_files))) skipped
  | Raise e =>
      e = EOFError ∧ rest = []
      ∧ Forall (λ l, ∀ c, int_of l = Some c →
                     ¬ (1 ≤ c ≤ Z.of_nat (length csv_files))) lines
  end.
Proof.
  induction lines as [|line lines IH]; simpl.
  { intros [= <- <-]. by split_and!. }
  destruct (int_of line) as [choice|] eqn:Hline.
  - case_decide as Hrange.
    + destruct (lookup_lt_is_Some_2 csv_files (Z.to_nat (choice - 1)))
        as [f Hf]; [lia|].
      rewrite Hf. intros [= <- <-]. by exists [], line, choice.
    + intros Hrun. specialize (IH Hrun). destruct o as [f|e].
      * destruct IH as (skipped & l & c & -> & ? & ? & ? & ?).
        exists (line :: skipped), l, c.
        do 4 (split; [done|]).
        constructor; [|done]. intros c' Hc'. by simplify_eq.
      * destruct IH as (-> & -> & ?). do 2 (split; [done|]).
        constructor; [|done]. intros c' Hc'. by simplify_eq.
  - intros Hrun. specialize (IH Hrun). destruct o as [f|e].
    + destruct IH as (skipped & l & c & -> & ? & ? & ? & ?).
      exists (line :: skipped), l, c.
      do 4 (split; [done|]).
      constructor; [|done]. intros c' Hc'. by simplify_eq.
    + destruct IH as (-> & -> & ?). do 2 (split; [done|]).
      constructor; [|done]. intros c' Hc'. by simplify_eq.
Qed.

(** X5. [select_csv_file] exits with status 1 exactly when there is no
    file to choose from. Otherwise it returns the file at position
    [choice - 1] of the menu, [choice] being the first line typed that
    [int] reads as a number from 1 to the number of files; the lines
    before it are dropped and those after it are left. It raises only when
    the input ends before such a line ([EOFError]), never [IndexError]. *)
Theorem select_csv_file_in_menu {P : Type} (int_of : str → option Z)
  (csv_files : list P) (w w' : world) (o : outcome (exiting P)) :
  select_csv_file int_of csv_files w = (o, w') →
  match o with
  | Ret (Exits status) => csv_files = [] ∧ status = 1 ∧ w' = w
  | Ret (Goes f) =>
      ∃ skipped line choice,
        stdin w = skipped ++ line :: stdin w'
        ∧ int_of line = Some choice
        ∧ 1 ≤ choice ≤ Z.of_nat (length csv_files)
        ∧ csv_files !! Z.to_nat (choice - 1) = Some f
        ∧ Forall (λ l, ∀ c, int_of l = Some c →
                       ¬ (1 ≤ c ≤ Z.of_nat (length csv_files))) skipped
  | Raise e =>
      e = EOFError ∧ csv_files ≠ [] ∧ stdin w' = []
      ∧ Forall (λ l, ∀ c, int_of l = Some c →
                     ¬ (1 ≤ c ≤ Z.of_nat (length csv_files))) (stdin w)
  end.
Proof.
  unfold select_csv_file. destruct csv_files as [|f0 files].
  { by intros [= <- <-]. }
  destruct (choose_file _ _ _) as [o1 rest] eqn:Hrun.
  apply choose_file_spec in Hrun.
  destruct o1 as [f|e]; intros [= <- <-]; [done|].
  destruct Hrun as (-> & -> & ?). by split_and!.
Qed.

Lemma select_csv_file_in_menu_witness :
  select_csv_file plain_int [lit "a.csv"; lit "b.csv"]
    (start (tape_of []) [lit "x"; lit "3"; lit "2"; lit "1"])
  = (Ret (Goes (lit "b.csv")), start (tape_of []) [lit "1"])
  ∧ ∃ skipped line choice,
      stdin (start (tape_of []) [lit "x"; lit "3"; lit "2"; lit "1"])
      = skipped ++ line :: stdin (start (tape_of []) [lit "1"])
      ∧ plain_int line = Some choice
      ∧ 1 ≤ choice ≤ Z.of_nat (length [lit "a.csv"; lit "b.csv"])
      ∧ [lit "a.csv"; lit "b.csv"] !! Z.to_nat (choice - 1)
        = Some (lit "b.csv")
      ∧ Forall (λ l, ∀ c, plain_int l = Some c →
                     ¬ (1 ≤ c ≤ Z.of_nat (length [lit "a.csv"; lit "b.csv"])))
               skipped.
Proof.
  split; [reflexivity|].
  apply (select_csv_file_in_menu plain_int [lit "a.csv"; lit "b.csv"]
           (start (tape_of []) [lit "x"; lit "3"; lit "2"; lit "1"])
           (start (tape_of []) [lit "1"]) (Ret (Goes (lit "b.csv")))).
  reflexivity.
Defined.

Lemma digits_inj (d d' : Decimal.uint) : digits d = digits d' → d = d'.
Proof.
  revert d'. induction d as [|d IH|d IH|d IH|d IH|d IH|d IH|d IH|d IH|d IH|d IH];
    intros [|d'|d'|d'|d'|d'|d'|d'|d'|d'|d']; simpl; intros H;
    try done; simplify_eq; f_equal; by apply IH.
Qed.

Lemma str_of_nat_inj (i j : nat) : str_of_nat i = str_of_nat j → i = j.
Proof. intros H. by apply Unsigned.to_uint_inj, digits_inj. Qed.

Lemma str_of_nat_nonempty (n : nat) : str_of_nat n ≠ [].
Proof.
  unfold str_of_nat. intros H.
  assert (Nat.to_uint n = Nil) as Hn by (by destruct (Nat.to_uint n)).
  pose proof (Unsigned.to_of (Nat.to_uint n)) as Hto.
  rewrite Unsigned.of_to Hn in Hto. by apply (unorm_nonnil Nil).
Qed.

Lemma elem_of_valid_answers (options : list str) (a : str) :
  a ∈ valid_answers options
  ↔ ∃ j, (1 ≤ j ≤ length options)%nat ∧ a = str_of_nat j.
Proof.
  unfold valid_answers. rewrite list_elem_of_fmap. split.
  - intros (i & -> & Hi%elem_of_seq). exists (i + 1)%nat. split; [lia|done].
  - intros (j & Hj & ->). exists (j - 1)%nat.
    rewrite elem_of_seq. split; [f_equal; lia|lia].
Qed.

Lemma read_answer_spec (options : list str) (lines : list str)
  (o : outcome str) (rest : list str) :
  read_answer (valid_answers options) lines = (o, rest) →
  match o with
  | Ret a =>
      ∃ skipped line,
        lines = skipped ++ line :: rest
        ∧ a = strip (upper line)
        ∧ a ∈ valid_answers options
        ∧ Forall (λ l, strip (upper l) ∉ valid_answers options) skipped
  | Raise e =>
      e = EOFError ∧ rest = []
      ∧ Forall (λ l, strip (upper l) ∉ valid_answers options) lines
  end.
Proof.
  induction lines as [|line lines IH]; simpl.
  { intros [= <- <-]. by split_and!. }
  destruct (truthy _ && bool_decide _) eqn:E.
  - intros [= <- <-]. apply andb_true_iff in E as [_ E%bool_decide_eq_true].
    by exists [], line.
  - assert (strip (upper line) ∉ valid_answers options) as Hbad.
    { intros Hin. apply andb_false_iff in E as [E|E].
      - apply elem_of_valid_answers in Hin as (j & _ & Hj).
        rewrite Hj in E. by destruct (str_of_nat j) eqn:Hs;
          [apply str_of_nat_nonempty in Hs|].
      - by apply bool_decide_eq_false in E. }
    intros Hrun. specialize (IH Hrun). destruct o as [a|e].
    + destruct IH as (skipped & l & -> & ? & ? & ?).
      exists (line :: skipped), l. split_and!; try done. by constructor.
    + destruct IH as (-> & -> & ?). split_and!; try done. by constructor.
Qed.

Lemma display_question_spec
  (n : Z) (text : str) (options : list str) (w w' : world) (o : outcome str) :
  display_question n text options w = (o, w') →
  w' = set_stdin (stdin w') w
  ∧ match o with
    | Ret a =>
        ∃ skipped line,
          stdin w = skipped ++ line :: stdin w'
          ∧ a = strip (upper line)
          ∧ a ∈ valid_answers options
          ∧ Forall (λ l, strip (upper l) ∉ valid_answers options) skipped
    | Raise e =>
        e = EOFError ∧ stdin w' = []
        ∧ Forall (λ l, strip (upper l) ∉ valid_answers options) (stdin w)
    end.
Proof.
  unfold display_question.
  destruct (read_answer _ _) as [o1 rest] eqn:Hrun. intros [= <- <-].
  split; [done|]. by apply read_answer_spec in Hrun.
Qed.



(** X7. An answer [display_question] returns is the label [str(j)] of
    exactly one position [j] of the options, [1 ≤ j ≤ len(options)]:
    different positions have different labels. *)
Theorem display_question_answer_names_one_option
  (n : Z) (text : str) (options : list str) (w w' : world) (a : str) :
  display_question n text options w = (Ret a, w') →
  ∃ j, (1 ≤ j ≤ length options)%nat
       ∧ a = str_of_nat j
       ∧ ∀ j', a = str_of_nat j' → j' = j.
Proof.
  intros (_ & skipped & line & _ & _ & Hin & _)%display_question_spec.
  apply elem_of_valid_answers in Hin as (j & Hj & ->).
  exists j. do 2 (split; [done|]). intros j' Hj'. by apply str_of_nat_inj.
Qed.

Lemma display_question_answer_names_one_option_witness :
  display_question 1 (lit "?") [lit "a"; lit "b"; lit "c"]
    (start (tape_of []) [lit ""; lit "4"; lit " 3 "; lit "1"])
  = (Ret (lit "3"), start (tape_of []) [lit "1"])
  ∧ ∃ j, (1 ≤ j ≤ length [lit "a"; lit "b"; lit "c"])%nat
         ∧ lit "3" = str_of_nat j
         ∧ ∀ j', lit "3" = str_of_nat j' → j' = j.
Proof.
  split; [reflexivity|].
  apply (display_question_answer_names_one_option 1 (lit "?")
           [lit "a"; lit "b"; lit "c"]
           (start (tape_of []) [lit ""; lit "4"; lit " 3 "; lit "1"])
           (start (tape_of []) [lit "1"]) (lit "3")).
  reflexivity.
Defined.

(** ** More on the generators *)

Lemma available_after (pool : list item) (used : gset nat) (c : nat) :
  available pool ({[ c ]} ∪ used) = filter (λ i, i ≠ c) (available pool used).
Proof.
  unfold available. rewrite list_filter_filter. apply list_filter_iff.
  intros i. rewrite not_elem_of_union not_elem_of_singleton. done.
Qed.

Lemma available_fresh (pool : list item) :
  available pool ∅ = seq 0 (length pool).
Proof.
  unfold available. induction (seq 0 (length pool)) as [|i l IH]; [done|].
  rewrite filter_cons_True; [|apply not_elem_of_empty]. by rewrite IH.
Qed.

Lemma text_at_seq (shown : item → str) (pool : list item) :
  text_at shown pool <$> seq 0 (length pool) = shown <$> pool.
Proof.
  apply list_eq. intros i. rewrite !list_lookup_fmap.
  destruct (pool !! i) as [it|] eqn:Hi.
  - rewrite lookup_seq_lt; [|by eapply lookup_lt_Some].
    by rewrite /= /text_at Hi.
  - rewrite lookup_seq_ge; [|by apply lookup_ge_None]. done.
Qed.

(** X8. A generator that returns a question removes its [correct_idx],
    and nothing else, from the indices available to the next call, whose
    order is kept. The index a True/False question borrows its wrong
    definition from is still available afterwards. *)
Theorem generators_consume_one_available_index
  (pool : list item) (k : Z) (w w' : world) (q : question) :
  (∀ loc,
     generate_definition_question pool k w = (Ret (Some (q, loc)), w')
     ∨ generate_term_question pool k w = (Ret (Some (q, loc)), w') →
     available pool (used_indices w')
     = filter (λ i, i ≠ correct_idx loc) (available pool (used_indices w))
     ∧ S (length (available pool (used_indices w')))
       = length (available pool (used_indices w)))
  ∧ (∀ loc,
       generate_tf_question pool w = (Ret (Some (q, loc)), w') →
       available pool (used_indices w')
       = filter (λ i, i ≠ tf_correct_idx loc)
           (available pool (used_indices w))
       ∧ S (length (available pool (used_indices w')))
         = length (available pool (used_indices w))
       ∧ ∀ j, wrong_idx loc = Some j →
              j ∈ available pool (used_indices w')).
Proof.
  rewrite generate_definition_question_unfold generate_term_question_unfold.
  split.
  - intros loc Hrun.
    assert (correct_idx loc ∈ available pool (used_indices w)
            ∧ used_indices w' = {[ correct_idx loc ]} ∪ used_indices w)
      as [Hc Hu].
    { destruct Hrun as [Hrun|Hrun];
        by apply choice_question_inv in Hrun
          as (_ & it & pos & ? & _ & ? & _). }
    rewrite Hu available_after. split; [done|].
    by apply length_filter_ne; [apply NoDup_available|].
  - intros loc (it & Hc & _ & _ & Hu & _ & _ & _ & Hpol)%tf_inv.
    rewrite Hu available_after. split; [done|].
    split; [by apply length_filter_ne; [apply NoDup_available|]|].
    intros j Hj. rewrite Hj in Hpol. destruct (is_true loc).
    + by destruct Hpol as [? _].
    + destruct Hpol as (j' & other & [= <-] & Hjav & Hne & _).
      by apply list_elem_of_filter.
Qed.

Lemma generators_consume_one_available_index_witness :
  ∃ q loc w',
    generate_tf_question http_pool (start (tape_of [1; 2; 0]%nat) [])
    = (Ret (Some (q, loc)), w')
    ∧ wrong_idx loc = Some 0%nat
    ∧ available http_pool (used_indices w') = [0; 1; 3]%nat
    ∧ available http_pool (used_indices w')
      = filter (λ i, i ≠ tf_correct_idx loc)
          (available http_pool
             (used_indices (start (tape_of [1; 2; 0]%nat) [])))
    ∧ S (length (available http_pool (used_indices w')))
      = length (available http_pool
                  (used_indices (start (tape_of [1; 2; 0]%nat) [])))
    ∧ ∀ j, wrong_idx loc = Some j →
           j ∈ available http_pool (used_indices w').
Proof.
  eexists _, _, _. split; [vm_compute; reflexivity|].
  split; [reflexivity|]. split; [reflexivity|].
  pose proof (generators_consume_one_available_index http_pool 0
                (start (tape_of [1; 2; 0]%nat) [])) as H.
  eapply H. vm_compute; reflexivity.
Defined.

(** X9. [generate_tf_question] raises exactly when one index is available
    and the coin shows False, and what it raises is [IndexError]. *)
Theorem generate_tf_question_raises_iff (pool : list item) (w : world) :
  ((∃ e, fst (generate_tf_question pool w) = Raise e)
   ↔ length (available pool (used_indices w)) = 1%nat ∧ coin w = false)
  ∧ ∀ e, fst (generate_tf_question pool w) = Raise e → e = IndexError.
Proof.
  destruct (decide (available pool (used_indices w) = [])) as [E|Hne].
  { rewrite tf_empty // E /=. split; [|done]. split; [by intros [? ?]|].
    by intros [? _]. }
  destruct (decide (coin w = true
                    ∨ (2 ≤ length (available pool (used_indices w)))%nat))
    as [Hc|Hc].
  - destruct (tf_success_run pool w Hne Hc) as (q & loc & w' & -> & _). simpl.
    split; [|done]. split; [by intros [? ?]|].
    intros [Hlen Hcoin]. destruct Hc as [Hc|Hc]; [congruence|lia].
  - assert (length (available pool (used_indices w)) = 1%nat) as Hlen.
    { destruct (available pool (used_indices w)) as [|? [|? ?]];
        simpl in *; [done|done|]. exfalso. apply Hc. right. lia. }
    assert (coin w = false) as Hcoin.
    { destruct (coin w); [|done]. exfalso. apply Hc. by left. }
    destruct (tf_crash pool w Hlen Hcoin) as (c & w' & -> & _). simpl.
    split; [|by intros ? [= <-]]. split; [done|]. by eexists.
Qed.

Section ChoiceQuestionEdges.
Variables (shown prompt : item → str) (pool : list item).

Lemma choice_question_nonpositive_exn (k : Z) (w : world) :
  k ≤ 0 →
  (available pool (used_indices w) = [] →
   choice_question shown prompt pool k w = (Raise IndexError, w))
  ∧ (available pool (used_indices w) ≠ [] →
     ∃ c w', choice_question shown prompt pool k w = (Raise ValueError, w')
       ∧ c ∈ available pool (used_indices w)
       ∧ used_indices w' = {[ c ]} ∪ used_indices w).
Proof.
  intros Hk. unfold choice_question. rewrite bind_run /=.
  set (av := available pool (used_indices w)) in *.
  rewrite decide_False; [|lia]. split.
  - intros E. by rewrite E bind_run choice_nil.
  - intros Hne.
    destruct (choice_run av w Hne) as (c & w1 & Hc & Hcav & Hu1 & _).
    rewrite bind_run Hc.
    pose proof Hcav as [Hclt _]%elem_of_available.
    destruct (item_at_run pool c w1 Hclt) as (it & Hit & _).
    rewrite bind_run Hit bind_run /= bind_run sample_raise; [|lia].
    exists c. eexists. split; [reflexivity|]. by rewrite /= Hu1.
Qed.

Lemma index_run_first (x : list str) (v : str) (w : world) :
  v ∈ x →
  ∃ pos, index x v w = (Ret pos, w) ∧ x !! pos = Some v
         ∧ ∀ i, (i < pos)%nat → x !! i ≠ Some v.
Proof.
  intros Hv. unfold index.
  destruct (list_find_elem_of (λ y, y = v) x v Hv eq_refl) as [[pos y] Hf].
  rewrite Hf. exists pos. split; [done|].
  apply list_find_Some in Hf as (Hpos & -> & Hfirst). split; [done|].
  intros i Hi Hx. by apply (Hfirst i v).
Qed.

Lemma choice_question_first_position (k : Z) (w : world) :
  1 ≤ k ≤ Z.of_nat (length (available pool (used_indices w))) →
  ∃ q loc w' it pos,
    choice_question shown prompt pool k w = (Ret (Some (q, loc)), w')
    ∧ pool !! correct_idx loc = Some it
    ∧ q_correct q = str_of_nat (pos + 1)
    ∧ q_options q !! pos = Some (shown it)
    ∧ ∀ i, (i < pos)%nat → q_options q !! i ≠ Some (shown it).
Proof.
  intros Hk. unfold choice_question. rewrite bind_run /=.
  set (av := available pool (used_indices w)) in *.
  rewrite decide_False; [|lia].
  destruct (choice_run av w) as (c & w1 & Hc & Hcav & _).
  { intros E. rewrite E /= in Hk. lia. }
  rewrite bind_run Hc.
  pose proof Hcav as [Hclt Hcu]%elem_of_available.
  destruct (item_at_run pool c w1 Hclt) as (it & Hit & Hlook).
  rewrite bind_run Hit bind_run /=.
  pose proof (length_filter_ne av c (NoDup_available _ _) Hcav) as Hlen.
  destruct (sample_run (filter (λ i, i ≠ c) av) (k - 1)
              (set_used ({[c]} ∪ used_indices w1) w1))
    as (ds & rest & w2 & Hs & _ & Hperm & _); [lia|].
  rewrite bind_run Hs bind_run mapM_text_run.
  2:{ apply Forall_forall. intros d Hd.
      assert (d ∈ filter (λ i, i ≠ c) av) as Hf
        by (rewrite -Hperm; apply elem_of_app; by left).
      by apply list_elem_of_filter in Hf as [_ [? _]%elem_of_available]. }
  destruct (shuffle_run (shown it :: (text_at shown pool <$> ds)) w2)
    as (opts & w3 & Hsh & Hopts & _).
  rewrite bind_run Hsh.
  destruct (index_run_first opts (shown it) w3) as (pos & Hidx & Hpos & Hfst).
  { rewrite Hopts. apply list_elem_of_here. }
  rewrite bind_run Hidx ret_run.
  by eexists _, _, _, it, pos.
Qed.
End ChoiceQuestionEdges.

(** X10. Called with a number of choices of 0 or less, a choice generator
    raises: [IndexError] and no change when no index is available;
    otherwise [ValueError], from [random.sample] asked for a negative
    number of items, after one available index has been added to the used
    set, so that this index is spent though no question was returned. *)
Theorem choice_generators_nonpositive_choices
  (pool : list item) (k : Z) (w : world) :
  k ≤ 0 →
  (available pool (used_indices w) = [] →
   generate_definition_question pool k w = (Raise IndexError, w)
   ∧ generate_term_question pool k w = (Raise IndexError, w))
  ∧ (available pool (used_indices w) ≠ [] →
     (∃ c w', generate_definition_question pool k w = (Raise ValueError, w')
        ∧ c ∈ available pool (used_indices w)
        ∧ used_indices w' = {[ c ]} ∪ used_indices w)
     ∧ (∃ c w', generate_term_question pool k w = (Raise ValueError, w')
          ∧ c ∈ available pool (used_indices w)
          ∧ used_indices w' = {[ c ]} ∪ used_indices w)).
Proof.
  intros Hk.
  rewrite generate_definition_question_unfold generate_term_question_unfold.
  split; intros Hav; split;
    by apply choice_question_nonpositive_exn.
Qed.

Lemma choice_generators_nonpositive_choices_witness :
  0 ≤ 0
  ∧ available http_pool (used_indices (start (tape_of [2%nat]) [])) ≠ []
  ∧ (∃ c w',
       generate_definition_question http_pool 0 (start (tape_of [2%nat]) [])
       = (Raise ValueError, w')
       ∧ c ∈ available http_pool (used_indices (start (tape_of [2%nat]) []))
       ∧ used_indices w'
         = {[ c ]} ∪ used_indices (start (tape_of [2%nat]) []))
  ∧ (∃ c w',
       generate_term_question http_pool 0 (start (tape_of [2%nat]) [])
       = (Raise ValueError, w')
       ∧ c ∈ available http_pool (used_indices (start (tape_of [2%nat]) []))
       ∧ used_indices w'
         = {[ c ]} ∪ used_indices (start (tape_of [2%nat]) [])).
Proof.
  split; [lia|]. split; [vm_compute; discriminate|].
  apply (choice_generators_nonpositive_choices http_pool 0
           (start (tape_of [2%nat]) [])); [lia|vm_compute; discriminate].
Defined.

Lemma generate_tf_question_raises_iff_witness :
  (length (available (take 1 http_pool)
             (used_indices (start (tape_of [1%nat]) []))) = 1%nat
   ∧ coin (start (tape_of [1%nat]) []) = false)
  ∧ (∃ e, fst (generate_tf_question (take 1 http_pool)
                 (start (tape_of [1%nat]) [])) = Raise e)
  ∧ (fst (generate_tf_question (take 1 http_pool)
            (start (tape_of [1%nat]) [])) = Raise IndexError
     → IndexError = IndexError).
Proof.
  pose proof (generate_tf_question_raises_iff (take 1 http_pool)
                (start (tape_of [1%nat]) [])) as [Hiff Hexn].
  split; [split; reflexivity|].
  split; [apply Hiff; split; reflexivity|].
  apply (Hexn IndexError).
Defined.

Lemma choice_question_all_texts shown prompt pool (k : Z) (w w' : world)
  q loc :
  choice_question shown prompt pool k w = (Ret (Some (q, loc)), w') →
  k = Z.of_nat (length (available pool (used_indices w))) →
  q_options q ≡ₚ text_at shown pool <$> available pool (used_indices w).
Proof.
  intros (_ & it & pos & Hc & Hit & _ & _ & _ & Hnd & Hds & Hlen & Hperm & _)
         %choice_question_inv Hk.
  rewrite Hperm.
  assert (shown it = text_at shown pool (correct_idx loc)) as ->
    by by rewrite /text_at Hit.
  change (text_at shown pool <$> (correct_idx loc :: distractor_indices loc)
          ≡ₚ text_at shown pool <$> available pool (used_indices w)).
  apply fmap_Permutation, submseteq_length_Permutation.
  - apply NoDup_submseteq.
    + constructor; [|done]. by intros [_ ?]%Hds.
    + intros i [->|Hi]%elem_of_cons; [done|]. by apply Hds in Hi as [? _].
  - simpl. lia.
Qed.

(** X11. A choice question asked with as many choices as there are
    available indices shows the text of every available record exactly
    once, in some order; on a fresh session with as many choices as the
    pool has records, the options are a permutation of all the definitions
    (of all the terms, for a term question). *)
Theorem choice_question_shows_all_available
  (pool : list item) (k : Z) (w w' : world) (q : question)
  (loc : choice_locals) :
  k = Z.of_nat (length (available pool (used_indices w))) →
  (generate_definition_question pool k w = (Ret (Some (q, loc)), w') →
   q_options q
     ≡ₚ text_at definition pool <$> available pool (used_indices w)
   ∧ (used_indices w = ∅ → q_options q ≡ₚ definition <$> pool))
  ∧ (generate_term_question pool k w = (Ret (Some (q, loc)), w') →
     q_options q ≡ₚ text_at term pool <$> available pool (used_indices w)
     ∧ (used_indices w = ∅ → q_options q ≡ₚ term <$> pool)).
Proof.
  rewrite generate_definition_question_unfold generate_term_question_unfold.
  intros Hk. split; intros Hrun;
    pose proof (choice_question_all_texts _ _ _ _ _ _ _ _ Hrun Hk) as Hall;
    (split; [done|]); intros Hfresh;
    by rewrite Hall Hfresh available_fresh text_at_seq.
Qed.

Lemma choice_question_shows_all_available_witness :
  ∃ q loc w',
    generate_definition_question http_pool 4
      (start (tape_of [0; 1; 2; 0; 1; 1; 1]%nat) [])
    = (Ret (Some (q, loc)), w')
    ∧ 4 = Z.of_nat (length (available http_pool
            (used_indices (start (tape_of [0; 1; 2; 0; 1; 1; 1]%nat) []))))
    ∧ used_indices (start (tape_of [0; 1; 2; 0; 1; 1; 1]%nat) []) = ∅
    ∧ q_options q
      = [lit "HyperText Transfer Protocol"; lit "Domain Name System";
         lit "Internet Protocol"; lit "Transmission Control Protocol"]
    ∧ q_correct q = lit "1"
    ∧ q_options q ≡ₚ definition <$> http_pool.
Proof.
  eexists _, _, _. split; [vm_compute; reflexivity|].
  split; [reflexivity|]. split; [reflexivity|].
  split; [reflexivity|]. split; [reflexivity|].
  eapply (choice_question_shows_all_available http_pool 4
            (start (tape_of [0; 1; 2; 0; 1; 1; 1]%nat) []));
    [reflexivity|vm_compute; reflexivity|reflexivity].
Defined.

(** X12. When the text of the correct record occurs more than once among
    the options of a choice question, the correct label is that of its
    first occurrence: no earlier option holds that text, and no other
    label is counted as correct. *)
Theorem choice_label_is_first_occurrence
  (pool : list item) (k : Z) (w w' : world) (q : question)
  (loc : choice_locals) :
  (generate_definition_question pool k w = (Ret (Some (q, loc)), w') →
   ∃ (it : item) (pos : nat),
     pool !! correct_idx loc = Some it
     ∧ q_options q !! pos = Some (definition it)
     ∧ (∀ i, (i < pos)%nat → q_options q !! i ≠ Some (definition it))
     ∧ ∀ j, str_of_nat j = q_correct q ↔ j = (pos + 1)%nat)
  ∧ (generate_term_question pool k w = (Ret (Some (q, loc)), w') →
     ∃ (it : item) (pos : nat),
       pool !! correct_idx loc = Some it
       ∧ q_options q !! pos = Some (term it)
       ∧ (∀ i, (i < pos)%nat → q_options q !! i ≠ Some (term it))
       ∧ ∀ j, str_of_nat j = q_correct q ↔ j = (pos + 1)%nat).
Proof.
  rewrite generate_definition_question_unfold generate_term_question_unfold.
  split; intros Hrun; pose proof Hrun as [Hk _]%choice_question_inv.
  - destruct (choice_question_first_position definition definition_prompt
                pool k w Hk)
      as (q1 & loc1 & w1 & it & pos & Hrun1 & Hit & Hlabel & Hpos & Hfirst).
    rewrite Hrun in Hrun1. simplify_eq.
    exists it, pos. do 3 (split; [done|]). intros j. rewrite Hlabel.
    split; [apply str_of_nat_inj|by intros ->].
  - destruct (choice_question_first_position term term_prompt pool k w Hk)
      as (q1 & loc1 & w1 & it & pos & Hrun1 & Hit & Hlabel & Hpos & Hfirst).
    rewrite Hrun in Hrun1. simplify_eq.
    exists it, pos. do 3 (split; [done|]). intros j. rewrite Hlabel.
    split; [apply str_of_nat_inj|by intros ->].
Qed.

Lemma choice_label_is_first_occurrence_witness :
  ∃ q loc w',
    generate_definition_question twin_pool 3
      (start (tape_of [1; 0; 0; 0; 1]%nat) [])
    = (Ret (Some (q, loc)), w')
    ∧ correct_idx loc = 1%nat
    ∧ q_options q = [lit "plant"; lit "vehicle"; lit "vehicle"]
    ∧ q_correct q = lit "2"
    ∧ ∃ (it : item) (pos : nat),
        twin_pool !! correct_idx loc = Some it
        ∧ q_options q !! pos = Some (definition it)
        ∧ (∀ i, (i < pos)%nat → q_options q !! i ≠ Some (definition it))
        ∧ ∀ j, str_of_nat j = q_correct q ↔ j = (pos + 1)%nat.
Proof.
  eexists _, _, _. split; [vm_compute; reflexivity|].
  split; [reflexivity|]. split; [reflexivity|]. split; [reflexivity|].
  eapply (choice_label_is_first_occurrence twin_pool 3
            (start (tape_of [1; 0; 0; 0; 1]%nat) [])).
  vm_compute; reflexivity.
Defined.

(** ** More on the session *)

Lemma chain_score e0 j e :
  chain e0 j → last (e0 :: j) = Some e →
  snap_score e
  = snap_score e0
    + Z.of_nat (length (filter (λ x, snap_answer x = snap_correct x) j)).
Proof.
  intros Hch. revert e.
  induction Hch as [e0|e0 e1 j (_ & Hs & _) Hch IH]; intros e Hlast.
  - simplify_eq/=. lia.
  - rewrite last_cons_cons in Hlast. rewrite (IH e Hlast) Hs filter_cons.
    repeat case_decide; simpl; (lia || done).
Qed.

Lemma chain_size e0 j e :
  chain e0 j → last (e0 :: j) = Some e →
  size (snap_used e) = (size (snap_used e0) + length j)%nat.
Proof.
  intros Hch. revert e.
  induction Hch as [e0|e0 e1 j (_ & _ & Hfresh & Hu) Hch IH]; intros e Hlast.
  - simplify_eq/=. lia.
  - rewrite last_cons_cons in Hlast. rewrite (IH e Hlast) Hu.
    rewrite size_union; [|by apply disjoint_singleton_l].
    rewrite size_singleton /=. lia.
Qed.

Lemma within_size (pool : list item) (w : world) :
  within pool w → (size (used_indices w) ≤ length pool)%nat.
Proof.
  intros Hin.
  transitivity (size (list_to_set (C := gset nat) (seq 0 (length pool)))).
  - apply subseteq_size. intros i Hi.
    apply elem_of_list_to_set, elem_of_seq. specialize (Hin i Hi). lia.
  - rewrite size_list_to_set; [|apply NoDup_seq]. by rewrite length_seq.
Qed.

Lemma choice_question_within shown prompt pool (k : Z) (w : world) :
  within pool w → within pool (snd (choice_question shown prompt pool k w)).
Proof.
  intros Hin.
  assert (∀ c w', c ∈ available pool (used_indices w) →
                  used_indices w' = {[ c ]} ∪ used_indices w →
                  within pool w') as Hadd.
  { intros c w' [Hc _]%elem_of_available Hu i. rewrite Hu.
    intros [->%elem_of_singleton|Hi]%elem_of_union; [done|by apply Hin]. }
  destruct (decide (Z.of_nat (length (available pool (used_indices w))) < k)).
  { by rewrite choice_question_insufficient. }
  destruct (decide (k ≤ 0)) as [Hk|Hk].
  - destruct (choice_question_nonpositive_exn shown prompt pool k w Hk)
      as [Hnil Hsome].
    destruct (decide (available pool (used_indices w) = [])) as [E|Hne].
    + by rewrite Hnil.
    + destruct (Hsome Hne) as (c & w' & -> & Hc & Hu). by eapply Hadd.
  - destruct (choice_question_success shown prompt pool k w)
      as (q & loc & w' & -> & it & pos & Hc & _ & Hu & _); [lia|].
    by eapply Hadd.
Qed.

Lemma generate_tf_question_within pool (w : world) :
  within pool w → within pool (snd (generate_tf_question pool w)).
Proof.
  intros Hin.
  assert (∀ c w', c ∈ available pool (used_indices w) →
                  used_indices w' = {[ c ]} ∪ used_indices w →
                  within pool w') as Hadd.
  { intros c w' [Hc _]%elem_of_available Hu i. rewrite Hu.
    intros [->%elem_of_singleton|Hi]%elem_of_union; [done|by apply Hin]. }
  destruct (decide (available pool (used_indices w) = [])) as [E|Hne].
  { by rewrite tf_empty. }
  destruct (decide (coin w = true
                    ∨ (2 ≤ length (available pool (used_indices w)))%nat))
    as [Hc|Hc].
  - destruct (tf_success_run pool w Hne Hc)
      as (q & loc & w' & -> & it & Hcav & _ & _ & Hu & _).
    by eapply Hadd.
  - destruct (tf_crash pool w) as (c & w' & -> & Hav & Hu & _).
    + destruct (available pool (used_indices w)) as [|? [|? ?]];
        simpl in *; [done|done|]. exfalso. apply Hc. right. lia.
    + destruct (coin w); [|done]. exfalso. apply Hc. by left.
    + eapply (Hadd c); [|done]. rewrite Hav. apply list_elem_of_here.
Qed.



Section Loops.
Context {L : Type} (idx : L → nat) (generate : M (option (question * L))).

Lemma ask_total (s s' : session) (w w' : world) :
  ask idx generate s w = (Ret (Some s'), w') →
  total_questions s' = total_questions s + 1.
Proof.
  unfold ask. rewrite bind_run.
  destruct (generate w) as [[[[q loc]|]|e] w1]; [|done..].
  rewrite bind_run.
  destruct (display_question _ _ _ w1) as [[a|e] w2]; [|done].
  rewrite bind_run /note ret_run. by intros [= <- <-].
Qed.


Lemma ask_within (pool : list item) (s : session) (w : world) :
  (∀ w, within pool w → within pool (snd (generate w))) →
  within pool w → within pool (snd (ask idx generate s w)).
Proof.
  intros Hgen Hin. unfold ask. rewrite bind_run.
  specialize (Hgen w Hin).
  destruct (generate w) as [[[[q loc]|]|e1] w1]; [|done..].
  rewrite bind_run.
  destruct (display_question _ _ _ w1) as [[a|e1] w2] eqn:Hd;
    apply display_question_run in Hd as (Hu & _); simpl in *.
  - unfold within in *. simpl. by rewrite Hu.
  - unfold within in *. by rewrite Hu.
Qed.
End Loops.

Lemma for_range_total n body s w s' w' :
  (∀ s w s1 w1, body s w = (Ret (Some s1), w1) →
                total_questions s1 = total_questions s + 1) →
  for_range n body s w = (Ret s', w') →
  total_questions s ≤ total_questions s' ≤ total_questions s + Z.of_nat n.
Proof.
  intros Hbody. revert s w.
  induction n as [|n IH]; intros s w.
  { rewrite /= ret_run. intros [= <- <-]. lia. }
  cbn [for_range]. rewrite bind_run.
  destruct (body s w) as [[[s1|]|e] w1] eqn:Hb; [| |done].
  - intros Hrun. apply IH in Hrun. apply Hbody in Hb. lia.
  - rewrite ret_run. intros [= <- <-]. lia.
Qed.


Lemma for_range_within pool n body s w :
  (∀ s w, within pool w → within pool (snd (body s w))) →
  within pool w → within pool (snd (for_range n body s w)).
Proof.
  intros Hbody. revert s w.
  induction n as [|n IH]; intros s w Hin; [done|].
  cbn [for_range]. rewrite bind_run.
  specialize (Hbody s w Hin).
  destruct (body s w) as [[[s1|]|e1] w1]; simpl in *; [by apply IH|done..].
Qed.

Lemma chain_last_total e0 j e :
  chain e0 j → last (e0 :: j) = Some e →
  snap_total e = snap_total e0 + Z.of_nat (length j).
Proof.
  intros Hch. revert e.
  induction Hch as [e0|e0 e1 j (Ht & _) Hch IH]; intros e Hlast.
  - simplify_eq/=. lia.
  - rewrite last_cons_cons in Hlast. rewrite (IH e Hlast) Ht /=. lia.
Qed.

(** The three loops of [run_test], one after the other. *)
Lemma run_test_blocks pool prefs w o w' :
  run_test pool prefs w = (o, w') →
  ∃ o1 w1,
    for_range (Z.to_nat (def_questions prefs))
      (ask correct_idx
         (generate_definition_question pool (def_choices prefs)))
      {| score := 0; total_questions := 0; question_number := 1 |}
      (set_journal [] (set_used ∅ w)) = (o1, w1)
    ∧ match o1 with
      | Raise e => o = Raise e ∧ w' = w1
      | Ret s1 =>
          ∃ o2 w2,
            for_range (Z.to_nat (term_questions prefs))
              (ask correct_idx
                 (generate_term_question pool (term_choices prefs)))
              s1 w1 = (o2, w2)
            ∧ match o2 with
              | Raise e => o = Raise e ∧ w' = w2
              | Ret s2 =>
                  ∃ o3,
                    for_range (Z.to_nat (tf_questions prefs))
                      (ask tf_correct_idx (generate_tf_question pool))
                      s2 w2 = (o3, w')
                    ∧ match o3 with
                      | Raise e => o = Raise e
                      | Ret s3 =>
                          o = Ret
                            {| r_score := score s3;
                               r_total := total_questions s3;
                               r_percentage :=
                                 percentage (score s3) (total_questions s3);
                               r_band :=
                                 remark (percentage (score s3)
                                           (total_questions s3)) |}
                      end
              end
      end.
Proof.
  unfold run_test. rewrite bind_run. cbv beta iota. rewrite bind_run.
  destruct (for_range _ _ _ (set_journal [] (set_used ∅ w)))
    as [[s1|e] w1] eqn:H1; intros Hrun.
  2:{ simplify_eq. eexists _, _. by split. }
  exists (Ret s1), w1. split; [done|]. rewrite bind_run in Hrun.
  destruct (for_range _ _ s1 w1) as [[s2|e] w2] eqn:H2.
  2:{ simplify_eq. eexists _, _. by split. }
  exists (Ret s2), w2. split; [done|]. rewrite bind_run in Hrun.
  destruct (for_range _ _ s2 w2) as [[s3|e] w3] eqn:H3.
  - rewrite ret_run in Hrun. simplify_eq. by eexists.
  - simplify_eq. by eexists.
Qed.

Lemma run_test_end pool prefs w r w' :
  run_test pool prefs w = (Ret r, w') →
  chain origin (journal w')
  ∧ ∃ e, last (origin :: journal w') = Some e
         ∧ r_score r = snap_score e ∧ r_total r = snap_total e
         ∧ snap_used e = used_indices w'.
Proof.
  intros Hrun.
  assert (loop_inv {| score := 0; total_questions := 0; question_number := 1 |}
            (set_journal [] (set_used ∅ w))) as H0.
  { split; [constructor|]. by exists origin. }
  apply run_test_blocks in Hrun as (o1 & w1 & H1 & Hrun).
  apply for_range_run in H1 as [_ H1]; [|
    by intros ????; apply ask_run, choice_question_gen_ok | done].
  destruct o1 as [s1|e]; [|by destruct Hrun].
  destruct Hrun as (o2 & w2 & H2 & Hrun).
  apply for_range_run in H2 as [_ H2]; [|
    by intros ????; apply ask_run, choice_question_gen_ok | done].
  destruct o2 as [s2|e]; [|by destruct Hrun].
  destruct Hrun as (o3 & H3 & Hrun).
  apply for_range_run in H3 as [Hch H3]; [|
    by intros ????; apply ask_run, generate_tf_question_gen_ok | done].
  destruct o3 as [s3|e]; [|done]. simplify_eq.
  split; [done|]. destruct H3 as [_ (e & Hlast & Hs & Ht & Hu)].
  exists e. by rewrite /= Hs Ht.
Qed.

(** X13. The final score is the number of answered questions for which
    the label typed was the correct label, and the final
    [total_questions] is the number of answered questions. *)
Theorem final_score_counts_correct_answers
  (pool : list item) (prefs : preferences) (w : world) (r : report) :
  fst (run_test pool prefs w) = Ret r →
  r_score r
  = Z.of_nat (length (filter (λ e, snap_answer e = snap_correct e)
                        (journal (snd (run_test pool prefs w)))))
  ∧ r_total r = Z.of_nat (length (journal (snd (run_test pool prefs w)))).
Proof.
  destruct (run_test pool prefs w) as [o w'] eqn:Hrun. simpl. intros ->.
  apply run_test_end in Hrun as (Hch & e & Hlast & -> & -> & _).
  by rewrite (chain_score _ _ _ Hch Hlast) (chain_last_total _ _ _ Hch Hlast).
Qed.

Lemma final_score_counts_correct_answers_witness :
  ∃ r,
    fst (run_test http_pool demo_prefs demo_world) = Ret r
    ∧ r_score r = 2 ∧ r_total r = 3
    ∧ r_score r
      = Z.of_nat (length (filter (λ e, snap_answer e = snap_correct e)
                   (journal (snd (run_test http_pool demo_prefs demo_world)))))
    ∧ r_total r
      = Z.of_nat (length (journal
                            (snd (run_test http_pool demo_prefs demo_world)))).
Proof.
  eexists. split; [vm_compute; reflexivity|].
  split; [reflexivity|]. split; [reflexivity|].
  apply (final_score_counts_correct_answers http_pool demo_prefs demo_world).
  vm_compute; reflexivity.
Defined.

Lemma run_test_total_le
  (pool : list item) (prefs : preferences) (w : world) (r : report) :
  fst (run_test pool prefs w) = Ret r →
  0 ≤ r_total r
      ≤ Z.max 0 (def_questions prefs) + Z.max 0 (term_questions prefs)
        + Z.max 0 (tf_questions prefs)
  ∧ (0 ≤ def_questions prefs → 0 ≤ term_questions prefs →
     0 ≤ tf_questions prefs → r_total r ≤ announced_total prefs).
Proof.
  destruct (run_test pool prefs w) as [o w'] eqn:Hrun. simpl. intros ->.
  apply run_test_blocks in Hrun as (o1 & w1 & H1 & Hrun).
  destruct o1 as [s1|e]; [|by destruct Hrun].
  destruct Hrun as (o2 & w2 & H2 & Hrun).
  destruct o2 as [s2|e]; [|by destruct Hrun].
  destruct Hrun as (o3 & H3 & Hrun).
  destruct o3 as [s3|e]; [|done]. simplify_eq. simpl.
  apply for_range_total in H1; [|by intros ????; apply ask_total].
  apply for_range_total in H2; [|by intros ????; apply ask_total].
  apply for_range_total in H3; [|by intros ????; apply ask_total].
  simpl in *. unfold announced_total. simpl. lia.
Qed.

(** X14. A session never answers more questions than were asked for:
    the final [total_questions] is at most the sum of the three numbers of
    questions (a negative number counting as none), which for numbers that
    are not negative is the total [run_test] announces at the start. *)
Theorem answered_at_most_requested
  (pool : list item) (prefs : preferences) (w : world) (r : report) :
  fst (run_test pool prefs w) = Ret r →
  0 ≤ r_total r
      ≤ Z.max 0 (def_questions prefs) + Z.max 0 (term_questions prefs)
        + Z.max 0 (tf_questions prefs)
  ∧ (0 ≤ def_questions prefs → 0 ≤ term_questions prefs →
     0 ≤ tf_questions prefs → r_total r ≤ announced_total prefs).
Proof. apply run_test_total_le. Qed.

Lemma answered_at_most_requested_witness :
  ∃ r,
    fst (run_test http_pool
           {| def_questions := 3; def_choices := 3;
              term_questions := 0; term_choices := 4;
              tf_questions := 0 |}
           (start (tape_of []) [lit "1"; lit "1"; lit "1"])) = Ret r
    ∧ r_total r = 2
    ∧ announced_total {| def_questions := 3; def_choices := 3;
                         term_questions := 0; term_choices := 4;
                         tf_questions := 0 |} = 3
    ∧ r_total r ≤ announced_total
                    {| def_questions := 3; def_choices := 3;
                       term_questions := 0; term_choices := 4;
                       tf_questions := 0 |}.
Proof.
  eexists. split; [vm_compute; reflexivity|].
  split; [reflexivity|]. split; [reflexivity|].
  eapply (answered_at_most_requested http_pool
            {| def_questions := 3; def_choices := 3;
               term_questions := 0; term_choices := 4;
               tf_questions := 0 |}
            (start (tape_of []) [lit "1"; lit "1"; lit "1"]));
    [vm_compute; reflexivity|simpl; lia..].
Defined.

Lemma run_test_within pool prefs w :
  within pool (snd (run_test pool prefs w)).
Proof.
  destruct (run_test pool prefs w) as [o w'] eqn:Hrun.
  assert (within pool (set_journal [] (set_used ∅ w))) as H0.
  { intros i Hi. by apply not_elem_of_empty in Hi. }
  apply run_test_blocks in Hrun as (o1 & w1 & H1 & Hrun).
  assert (within pool w1) as Hw1.
  { replace w1 with (snd (for_range (Z.to_nat (def_questions prefs))
      (ask correct_idx (generate_definition_question pool (def_choices prefs)))
      {| score := 0; total_questions := 0; question_number := 1 |}
      (set_journal [] (set_used ∅ w)))) by by rewrite H1.
    apply for_range_within; [|done]. intros s0 w0.
    apply ask_within, choice_question_within. }
  destruct o1 as [s1|e]; [|by destruct Hrun as [_ ->]].
  destruct Hrun as (o2 & w2 & H2 & Hrun).
  assert (within pool w2) as Hw2.
  { replace w2 with (snd (for_range (Z.to_nat (term_questions prefs))
      (ask correct_idx (generate_term_question pool (term_choices prefs)))
      s1 w1)) by by rewrite H2.
    apply for_range_within; [|done]. intros s0 w0.
    apply ask_within, choice_question_within. }
  destruct o2 as [s2|e]; [|by destruct Hrun as [_ ->]].
  destruct Hrun as (o3 & H3 & Hrun).
  replace w' with (snd (for_range (Z.to_nat (tf_questions prefs))
      (ask tf_correct_idx (generate_tf_question pool)) s2 w2))
    by by rewrite H3.
  apply for_range_within; [|done]. intros s0 w0.
  apply ask_within, generate_tf_question_within.
Qed.

(** X15. However a session ends, the used set holds indices of the pool
    only. When the session ends normally the used set has exactly one
    index for each answered question, so that a session never answers more
    questions than the pool has records. *)
Theorem answered_at_most_pool
  (pool : list item) (prefs : preferences) (w : world) :
  (∀ i, i ∈ used_indices (snd (run_test pool prefs w)) →
        (i < length pool)%nat)
  ∧ ∀ r, fst (run_test pool prefs w) = Ret r →
         Z.of_nat (size (used_indices (snd (run_test pool prefs w))))
         = r_total r
         ∧ r_total r ≤ Z.of_nat (length pool).
Proof.
  pose proof (run_test_within pool prefs w) as Hin. split; [done|].
  apply within_size in Hin.
  destruct (run_test pool prefs w) as [o w'] eqn:Hrun. simpl in *.
  intros r ->.
  apply run_test_end in Hrun as (Hch & e & Hlast & _ & -> & Hu).
  pose proof (chain_size _ _ _ Hch Hlast) as Hsize.
  assert (size (snap_used origin) = 0%nat) as H0 by apply size_empty.
  rewrite (chain_last_total _ _ _ Hch Hlast) /=.
  rewrite -Hu Hsize H0 in Hin |- *. lia.
Qed.

Lemma answered_at_most_pool_witness :
  ∃ r,
    fst (run_test http_pool demo_prefs demo_world) = Ret r
    ∧ elements (used_indices (snd (run_test http_pool demo_prefs demo_world)))
      = [2; 1; 0]%nat
    ∧ r_total r = 3
    ∧ Z.of_nat (size (used_indices
                        (snd (run_test http_pool demo_prefs demo_world))))
      = r_total r
    ∧ r_total r ≤ Z.of_nat (length http_pool).
Proof.
  eexists. split; [vm_compute; reflexivity|].
  split; [reflexivity|]. split; [reflexivity|].
  apply (answered_at_most_pool http_pool demo_prefs demo_world).
  vm_compute; reflexivity.
Defined.




(** ** Reading the preferences *)

Lemma pass_bind_Got {A B : Type} (m : Pass A) (f : A → Pass B)
  (lines : list str) (b : B) (rest : list str) :
  (m ≫= f) lines = Got b rest →
  ∃ a mid, m lines = Got a mid ∧ f a mid = Got b rest.
Proof.
  unfold mbind, Pass_bind. destruct (m lines) as [a mid| |]; [|done..].
  intros Hf. by exists a, mid.
Qed.

Lemma read_int_Got int_of (lines : list str) (z : Z) (mid : list str) :
  read_int int_of lines = Got z mid →
  ∃ line, lines = line :: mid ∧ int_of line = Some z.
Proof.
  destruct lines as [|line lines]; [done|]. simpl.
  destruct (int_of line) as [z'|] eqn:Hline; [|done].
  intros [= <- <-]. by exists line.
Qed.

Lemma reject_Got (bad : bool) (lines : list str) (u : unit) (mid : list str) :
  reject bad lines = Got u mid → bad = false ∧ mid = lines.
Proof. unfold reject. destruct bad; [done|]. by intros [= <-]. Qed.

Ltac pass_inv H :=
  let a := fresh "a" in
  let mid := fresh "mid" in
  let H1 := fresh "H" in
  apply pass_bind_Got in H as (a & mid & H1 & H);
  first [ apply read_int_Got in H1 as (? & ? & ?); subst
        | apply reject_Got in H1 as [?%bool_decide_eq_false ?]; subst
        | idtac ].

Lemma preferences_pass_Got int_of (n : Z) (lines : list str)
  (p : preferences) (rest : list str) :
  preferences_pass int_of n lines = Got p rest →
  valid_preferences n p
  ∧ ∃ typed, lines = typed ++ rest
      ∧ Forall2 (λ l z, int_of l = Some z) typed (entries p).
Proof.
  intros H. unfold preferences_pass in H.
  pass_inv H. pass_inv H. pass_inv H. pass_inv H.
  pass_inv H. pass_inv H. pass_inv H. pass_inv H.
  pass_inv H. pass_inv H. pass_inv H. pass_inv H. pass_inv H.
  injection H as <- <-.
  unfold valid_preferences, entries. simpl.
  destruct (decide (a > 0)) as [Hd|Hd];
    destruct (decide (a3 > 0)) as [Ht|Ht];
    repeat match goal with
    | H : (read_int _ ≫= _) _ = Got _ _ |- _ =>
        pass_inv H; pass_inv H; injection H as ? ?; subst
    | H : mret _ _ = Got _ _ |- _ => injection H as ? ?; subst
    end;
    (split; [lia|]);
    first [ eexists [_; _; _; _; _]; split; [reflexivity|]
          | eexists [_; _; _; _]; split; [reflexivity|]
          | eexists [_; _; _]; split; [reflexivity|] ];
    repeat (constructor; [done|]); constructor.
Qed.

Lemma preferences_pass_accepts int_of (n : Z) (p : preferences)
  (typed rest : list str) :
  valid_preferences n p →
  Forall2 (λ l z, int_of l = Some z) typed (entries p) →
  preferences_pass int_of n (typed ++ rest) = Got p rest.
Proof.
  destruct p as [dq dc tq tc tf]. unfold valid_preferences, entries. simpl.
  intros (Hdq & Hdc & Htq & Htc & Htf & Htot) Htyped.
  destruct (decide (dq > 0)) as [Hd|Hd];
    destruct (decide (tq > 0)) as [Ht|Ht]; simpl in Htyped;
    repeat match goal with
    | H : Forall2 _ _ (_ :: _) |- _ =>
        apply Forall2_cons_inv_r in H as (? & ? & ? & H & ->)
    | H : Forall2 _ _ [] |- _ => apply Forall2_nil_inv_r in H as ->
    end.
  all: unfold preferences_pass, mbind, Pass_bind, read_int, reject, mret,
         Pass_ret; simpl.
  all: repeat first
    [ match goal with
      | H : ?f ?x = Some _ |- context [?f ?x] => rewrite H
      end
    | match goal with
      | |- context [bool_decide ?P] =>
          rewrite (bool_decide_eq_false_2 P); [|lia]
      end
    | match goal with
      | |- context [decide ?P] =>
          first [ rewrite (decide_True (P := P)); [|lia]
                | rewrite (decide_False (P := P)); [|lia] ]
      end
    | progress simpl ].
  all: by subst.
Qed.

Lemma advances_bind {A B : Type} (k : nat) (m : Pass A) (f : A → Pass B) :
  advances k m → (∀ a, advances 0 (f a)) → advances k (m ≫= f).
Proof.
  intros Hm Hf lines. specialize (Hm lines). unfold mbind, Pass_bind.
  destruct (m lines) as [a mid|mid|]; [|done..].
  destruct Hm as (c1 & -> & Hc1). specialize (Hf a mid).
  destruct (f a mid) as [b rest|rest|]; [| |done].
  - destruct Hf as (c2 & -> & _). exists (c1 ++ c2).
    rewrite length_app app_assoc. split; [done|lia].
  - destruct Hf as (c2 & -> & _). exists (c1 ++ c2).
    rewrite length_app app_assoc. split; [done|lia].
Qed.

Lemma advances_weaken {A : Type} (k : nat) (m : Pass A) :
  advances k m → advances 0 m.
Proof.
  intros Hm lines. specialize (Hm lines).
  destruct (m lines) as [a mid|mid|]; [| |done];
    destruct Hm as (c & -> & _); exists c; (split; [done|lia]).
Qed.

Lemma advances_read_int int_of : advances 1 (read_int int_of).
Proof.
  intros [|line lines]; [done|]. simpl.
  destruct (int_of line); by exists [line].
Qed.

Lemma advances_reject (bad : bool) : advances 0 (reject bad).
Proof. intros lines. unfold reject. destruct bad; by exists []. Qed.

Lemma advances_ret {A : Type} (a : A) : advances 0 (mret a : Pass A).
Proof. intros lines. by exists []. Qed.

Lemma preferences_pass_advances int_of (n : Z) :
  advances 1 (preferences_pass int_of n).
Proof.
  unfold preferences_pass.
  apply advances_bind; [apply advances_read_int|]. intros dq.
  repeat first
    [ apply advances_ret
    | apply advances_reject
    | apply (advances_weaken 1), advances_read_int
    | apply advances_bind; [|intros ?]
    | case_decide ].
Qed.

Lemma preferences_loop_enough int_of (n : Z) (fuel : nat) (lines : list str) :
  (length lines < fuel)%nat →
  is_Some (preferences_loop int_of n fuel lines).
Proof.
  revert lines. induction fuel as [|fuel IH]; intros lines Hlen; [lia|].
  simpl. pose proof (preferences_pass_advances int_of n lines) as Hadv.
  destruct (preferences_pass int_of n lines) as [p rest|rest|]; [done| |done].
  destruct Hadv as (c & -> & Hc). apply IH.
  rewrite length_app in Hlen. lia.
Qed.

Lemma preferences_loop_spec int_of (n : Z) (fuel : nat) (lines : list str)
  (o : outcome preferences) (rest : list str) :
  preferences_loop int_of n fuel lines = Some (o, rest) →
  match o with
  | Ret p =>
      valid_preferences n p
      ∧ ∃ skipped typed,
          lines = skipped ++ typed ++ rest
          ∧ Forall2 (λ l z, int_of l = Some z) typed (entries p)
  | Raise e => e = EOFError ∧ rest = []
  end.
Proof.
  revert lines. induction fuel as [|fuel IH]; intros lines; [done|].
  simpl. pose proof (preferences_pass_advances int_of n lines) as Hadv.
  destruct (preferences_pass int_of n lines) as [p mid|mid|] eqn:Hpass.
  - intros [= <- <-].
    apply preferences_pass_Got in Hpass as (Hvalid & typed & -> & Htyped).
    split; [done|]. by exists [], typed.
  - intros Hrun. specialize (IH mid Hrun).
    destruct Hadv as (c & -> & _). destruct o as [p|e]; [|done].
    destruct IH as (Hvalid & skipped & typed & -> & Htyped).
    split; [done|]. exists (c ++ skipped), typed. by rewrite -app_assoc.
  - by intros [= <- <-].
Qed.

Lemma get_user_preferences_spec int_of (pool : list item) (w w' : world)
  (o : outcome preferences) :
  get_user_preferences int_of pool w = (o, w') →
  w' = set_stdin (stdin w') w
  ∧ match o with
    | Ret p =>
        valid_preferences (Z.of_nat (length pool)) p
        ∧ ∃ skipped typed,
            stdin w = skipped ++ typed ++ stdin w'
            ∧ Forall2 (λ l z, int_of l = Some z) typed (entries p)
    | Raise e => e = EOFError ∧ stdin w' = []
    end.
Proof.
  unfold get_user_preferences.
  destruct (preferences_loop_enough int_of (Z.of_nat (length pool))
              (S (length (stdin w))) (stdin w)) as [[o1 rest] Hloop]; [lia|].
  rewrite Hloop. intros [= <- <-]. split; [done|].
  by apply preferences_loop_spec in Hloop.
Qed.

(** X17. Preferences [get_user_preferences] returns have passed every
    check: each number of questions is between 0 and the number of
    records, a number of choices is between 2 and the number of records
    when questions of its kind are asked for and is 4 otherwise, and the
    total is between 1 and the number of records. They are the numbers
    [int] read on the last lines consumed, and the lines after them are
    left. The loop stops on every finite input, within one pass more than
    there are lines, and raises only [EOFError], when the input ends
    first. *)
Theorem get_user_preferences_valid int_of (pool : list item) (w w' : world)
  (o : outcome preferences) :
  get_user_preferences int_of pool w = (o, w') →
  is_Some (preferences_loop int_of (Z.of_nat (length pool))
             (S (length (stdin w))) (stdin w))
  ∧ w' = set_stdin (stdin w') w
  ∧ match o with
    | Ret p =>
        valid_preferences (Z.of_nat (length pool)) p
        ∧ ∃ skipped typed,
            stdin w = skipped ++ typed ++ stdin w'
            ∧ Forall2 (λ l z, int_of l = Some z) typed (entries p)
    | Raise e => e = EOFError ∧ stdin w' = []
    end.
Proof.
  intros Hrun. split; [apply preferences_loop_enough; lia|].
  by apply get_user_preferences_spec.
Qed.

Lemma get_user_preferences_valid_witness :
  get_user_preferences plain_int http_pool
    (start (tape_of []) [lit "9"; lit "2"; lit "x"; lit "1"; lit "4";
                         lit "0"; lit "1"; lit "2"])
  = (Ret {| def_questions := 1; def_choices := 4;
            term_questions := 0; term_choices := 4;
            tf_questions := 1 |},
     start (tape_of []) [lit "2"])
  ∧ valid_preferences (Z.of_nat (length http_pool))
      {| def_questions := 1; def_choices := 4;
         term_questions := 0; term_choices := 4;
         tf_questions := 1 |}.
Proof.
  split; [reflexivity|].
  apply (get_user_preferences_valid plain_int http_pool
           (start (tape_of []) [lit "9"; lit "2"; lit "x"; lit "1"; lit "4";
                                lit "0"; lit "1"; lit "2"])
           (start (tape_of []) [lit "2"])
           (Ret {| def_questions := 1; def_choices := 4;
                   term_questions := 0; term_choices := 4;
                   tf_questions := 1 |})).
  reflexivity.
Defined.

(** X18. Conversely, preferences that pass these checks are accepted at
    once when they are typed without a mistake: [get_user_preferences]
    returns them and leaves the lines that follow. A number of choices is
    typed only after a positive number of questions. *)
Theorem get_user_preferences_accepts int_of (pool : list item) (w : world)
  (p : preferences) (typed rest : list str) :
  valid_preferences (Z.of_nat (length pool)) p →
  Forall2 (λ l z, int_of l = Some z) typed (entries p) →
  stdin w = typed ++ rest →
  get_user_preferences int_of pool w = (Ret p, set_stdin rest w).
Proof.
  intros Hvalid Htyped Hin. unfold get_user_preferences. simpl.
  by rewrite Hin (preferences_pass_accepts _ _ _ _ _ Hvalid Htyped).
Qed.

Lemma get_user_preferences_accepts_witness :
  valid_preferences (Z.of_nat (length http_pool)) demo_prefs
  ∧ Forall2 (λ l z, plain_int l = Some z)
      [lit "1"; lit "4"; lit "1"; lit "2"; lit "1"] (entries demo_prefs)
  ∧ get_user_preferences plain_int http_pool
      (start (tape_of []) [lit "1"; lit "4"; lit "1"; lit "2"; lit "1";
                           lit "3"])
    = (Ret demo_prefs,
       set_stdin [lit "3"]
         (start (tape_of []) [lit "1"; lit "4"; lit "1"; lit "2"; lit "1";
                              lit "3"])).
Proof.
  assert (valid_preferences (Z.of_nat (length http_pool)) demo_prefs) as Hv.
  { unfold valid_preferences. simpl. lia. }
  assert (Forall2 (λ l z, plain_int l = Some z)
            [lit "1"; lit "4"; lit "1"; lit "2"; lit "1"] (entries demo_prefs))
    as Ht.
  { repeat (constructor; [reflexivity|]). constructor. }
  split; [exact Hv|]. split; [exact Ht|].
  apply (get_user_preferences_accepts plain_int http_pool _ demo_prefs
           [lit "1"; lit "4"; lit "1"; lit "2"; lit "1"] [lit "3"] Hv Ht).
  reflexivity.
Defined.


